(** * AdvancedSlideshowScript: the transition state machine of [slideshow.js]

    A shallow embedding of the [Slideshow] class.  The object's fields, the
    DOM elements it drives (class lists, [transitionend] listeners), the
    browser's timer table and the variables captured by the closures the
    class creates are gathered in one record, [World]; every method is a
    computation in a state-and-exception monad over it.  Closures are
    represented by the data they capture ([Callback], [TimerFn],
    [Listener]); the browser is a step function over [Event]s. *)

From Stdlib Require Import ZArith String List Bool Lia.
Import ListNotations.
Local Open Scope Z_scope.

(** ** Values *)

(** A JavaScript variable that holds a timer handle: [undefined] until it is
    assigned, a number once [setTimeout] returned, [null] when reset. *)
Inductive Handle : Type :=
| Undefined
| Null
| Num (id : Z).

(** [h == null] in JavaScript: true for [null] and for [undefined]. *)
Definition isNullish (h : Handle) : bool :=
  match h with
  | Num _ => false
  | _ => true
  end.

(** The final continuation of a [transitionTo] chain (the inner functions at
    lines 359 and 380); it captures the target element. *)
Inductive Final : Type :=
| PrevFinal (target : option nat)
| NextFinal (target : option nat).

(** The functions passed as [callback] to [markTransitioning], each with the
    variables it captures.  Variables that a closure assigns after its
    creation ([selectedLoopTimeout], the loop counter [i]) are captured by
    address. *)
Inductive Callback : Type :=
| CbNull
| CbForwardDone (looping : bool) (nextIndex : Z) (selectedLoopTimeout : nat)
| CbBackwardDone (looping : bool) (prevIndex : Z)
| CbToPrev (selectedIndex distance : Z) (target : option nat)
| CbToNext (selectedIndex distance : Z) (target : option nat)
| CbPrevLoopStep (selectedIndex distance : Z) (i : nat) (callback : Final)
| CbNextLoopStep (selectedIndex distance : Z) (i : nat) (callback : Final).

(** The functions handed to [setTimeout] and [setInterval]. *)
Inductive TimerFn : Type :=
| TfDebounceRelease
| TfSelectedLoop (nextIndex : Z)
| TfBackup (backupTimeout : nat) (callback : Callback)
| TfAutoInterval
| TfAutoResume.

Record Timer : Type := mkTimer {
  t_id : Z;
  t_due : Z;
  t_period : option Z;
  t_fn : TimerFn
}.

(** One [onTransitionEnd] function object; [l_var] is the address of the
    [backupTimeout] variable of the [markTransitioning] activation that
    created it, which also identifies the function object. *)
Record Listener : Type := mkListener {
  l_var : nat;
  l_endDebounce : bool;
  l_callback : Callback
}.

Record Item : Type := mkItem {
  classList : list string;
  listeners : list Listener
}.

Record Indicator : Type := mkIndicator {
  i_classList : list string;
  data_index : option Z
}.

(** What an observer of the program could record: a continuation handed to
    the tracker whose [backupTimeout] variable is [var] has been called.
    No program decision reads the trace. *)
Inductive Obs : Type :=
| Invoked (var : nat).

(** The constructor's parameters that are never assigned again. *)
Record Config : Type := mkConfig {
  loop : bool;
  shouldDebounce : bool;
  shouldAutoTransition : bool;
  autoTransitionTime : Z;
  autoTransitionDelay : Z;
  selectedIndicatorClass : string;
  prevItemClass : string;
  selectedItemClass : string;
  nextItemClass : string;
  transitioningClass : option string;
  notransitionClass : option string
}.

Record World : Type := mkWorld {
  cfg : Config;
  items : list Item;
  indicators : option (list Indicator);
  transitioning : bool;
  transitioningTimeout : Handle;
  autoTransitionDirection : Z;
  autoTransitionInterval : Handle;
  autoTransitionTimeout : Handle;
  (* the browser *)
  timers : list Timer;
  nextTimerId : Z;
  now : Z;
  console : list string;
  (* variables captured by closures, one cell per activation *)
  backupTimeoutVars : list Handle;
  selectedLoopTimeoutVars : list Handle;
  iVars : list Z;
  (* observations *)
  trace : list Obs
}.

Definition set_items (v : list Item) (w : World) : World :=
  mkWorld (cfg w) v (indicators w) (transitioning w) (transitioningTimeout w)
    (autoTransitionDirection w) (autoTransitionInterval w) (autoTransitionTimeout w)
    (timers w) (nextTimerId w) (now w) (console w)
    (backupTimeoutVars w) (selectedLoopTimeoutVars w) (iVars w) (trace w).

Definition set_indicators (v : option (list Indicator)) (w : World) : World :=
  mkWorld (cfg w) (items w) v (transitioning w) (transitioningTimeout w)
    (autoTransitionDirection w) (autoTransitionInterval w) (autoTransitionTimeout w)
    (timers w) (nextTimerId w) (now w) (console w)
    (backupTimeoutVars w) (selectedLoopTimeoutVars w) (iVars w) (trace w).

Definition set_transitioning (v : bool) (w : World) : World :=
  mkWorld (cfg w) (items w) (indicators w) v (transitioningTimeout w)
    (autoTransitionDirection w) (autoTransitionInterval w) (autoTransitionTimeout w)
    (timers w) (nextTimerId w) (now w) (console w)
    (backupTimeoutVars w) (selectedLoopTimeoutVars w) (iVars w) (trace w).

Definition set_transitioningTimeout (v : Handle) (w : World) : World :=
  mkWorld (cfg w) (items w) (indicators w) (transitioning w) v
    (autoTransitionDirection w) (autoTransitionInterval w) (autoTransitionTimeout w)
    (timers w) (nextTimerId w) (now w) (console w)
    (backupTimeoutVars w) (selectedLoopTimeoutVars w) (iVars w) (trace w).

Definition set_autoTransitionDirection (v : Z) (w : World) : World :=
  mkWorld (cfg w) (items w) (indicators w) (transitioning w) (transitioningTimeout w)
    v (autoTransitionInterval w) (autoTransitionTimeout w)
    (timers w) (nextTimerId w) (now w) (console w)
    (backupTimeoutVars w) (selectedLoopTimeoutVars w) (iVars w) (trace w).

Definition set_autoTransitionInterval (v : Handle) (w : World) : World :=
  mkWorld (cfg w) (items w) (indicators w) (transitioning w) (transitioningTimeout w)
    (autoTransitionDirection w) v (autoTransitionTimeout w)
    (timers w) (nextTimerId w) (now w) (console w)
    (backupTimeoutVars w) (selectedLoopTimeoutVars w) (iVars w) (trace w).

Definition set_autoTransitionTimeout (v : Handle) (w : World) : World :=
  mkWorld (cfg w) (items w) (indicators w) (transitioning w) (transitioningTimeout w)
    (autoTransitionDirection w) (autoTransitionInterval w) v
    (timers w) (nextTimerId w) (now w) (console w)
    (backupTimeoutVars w) (selectedLoopTimeoutVars w) (iVars w) (trace w).

Definition set_timers (v : list Timer) (w : World) : World :=
  mkWorld (cfg w) (items w) (indicators w) (transitioning w) (transitioningTimeout w)
    (autoTransitionDirection w) (autoTransitionInterval w) (autoTransitionTimeout w)
    v (nextTimerId w) (now w) (console w)
    (backupTimeoutVars w) (selectedLoopTimeoutVars w) (iVars w) (trace w).

Definition set_nextTimerId (v : Z) (w : World) : World :=
  mkWorld (cfg w) (items w) (indicators w) (transitioning w) (transitioningTimeout w)
    (autoTransitionDirection w) (autoTransitionInterval w) (autoTransitionTimeout w)
    (timers w) v (now w) (console w)
    (backupTimeoutVars w) (selectedLoopTimeoutVars w) (iVars w) (trace w).

Definition set_now (v : Z) (w : World) : World :=
  mkWorld (cfg w) (items w) (indicators w) (transitioning w) (transitioningTimeout w)
    (autoTransitionDirection w) (autoTransitionInterval w) (autoTransitionTimeout w)
    (timers w) (nextTimerId w) v (console w)
    (backupTimeoutVars w) (selectedLoopTimeoutVars w) (iVars w) (trace w).

Definition set_console (v : list string) (w : World) : World :=
  mkWorld (cfg w) (items w) (indicators w) (transitioning w) (transitioningTimeout w)
    (autoTransitionDirection w) (autoTransitionInterval w) (autoTransitionTimeout w)
    (timers w) (nextTimerId w) (now w) v
    (backupTimeoutVars w) (selectedLoopTimeoutVars w) (iVars w) (trace w).

Definition set_backupTimeoutVars (v : list Handle) (w : World) : World :=
  mkWorld (cfg w) (items w) (indicators w) (transitioning w) (transitioningTimeout w)
    (autoTransitionDirection w) (autoTransitionInterval w) (autoTransitionTimeout w)
    (timers w) (nextTimerId w) (now w) (console w)
    v (selectedLoopTimeoutVars w) (iVars w) (trace w).

Definition set_selectedLoopTimeoutVars (v : list Handle) (w : World) : World :=
  mkWorld (cfg w) (items w) (indicators w) (transitioning w) (transitioningTimeout w)
    (autoTransitionDirection w) (autoTransitionInterval w) (autoTransitionTimeout w)
    (timers w) (nextTimerId w) (now w) (console w)
    (backupTimeoutVars w) v (iVars w) (trace w).

Definition set_iVars (v : list Z) (w : World) : World :=
  mkWorld (cfg w) (items w) (indicators w) (transitioning w) (transitioningTimeout w)
    (autoTransitionDirection w) (autoTransitionInterval w) (autoTransitionTimeout w)
    (timers w) (nextTimerId w) (now w) (console w)
    (backupTimeoutVars w) (selectedLoopTimeoutVars w) v (trace w).

Definition set_trace (v : list Obs) (w : World) : World :=
  mkWorld (cfg w) (items w) (indicators w) (transitioning w) (transitioningTimeout w)
    (autoTransitionDirection w) (autoTransitionInterval w) (autoTransitionTimeout w)
    (timers w) (nextTimerId w) (now w) (console w)
    (backupTimeoutVars w) (selectedLoopTimeoutVars w) (iVars w) v.

(** ** The monad: state, and a [TypeError] that keeps the state reached *)

Inductive Res (A : Type) : Type :=
| Ok (a : A) (w : World)
| Throw (w : World).
Arguments Ok {A} a w.
Arguments Throw {A} w.

Definition M (A : Type) : Type := World -> Res A.

Definition ret {A} (a : A) : M A := fun w => Ok a w.

Definition bind {A B} (m : M A) (f : A -> M B) : M B :=
  fun w => match m w with
           | Ok a w' => f a w'
           | Throw w' => Throw w'
           end.

Notation "x <- m ;; k" := (bind m (fun x => k))
  (at level 61, m at next level, right associativity).
Notation "m ;; k" := (bind m (fun _ => k))
  (at level 61, right associativity).

Definition throw {A} : M A := fun w => Throw w.
Definition gets {A} (f : World -> A) : M A := fun w => Ok (f w) w.
Definition modify (f : World -> World) : M unit := fun w => Ok tt (f w).
Definition when (b : bool) (m : M unit) : M unit := if b then m else ret tt.

(** The state a computation leaves, whether it returned or threw. *)
Definition outcome {A} (r : Res A) : World :=
  match r with
  | Ok _ w => w
  | Throw w => w
  end.

Definition threw {A} (r : Res A) : bool :=
  match r with
  | Ok _ _ => false
  | Throw _ => true
  end.

(** [for (var i = 0; i < n; i++) body(i)] *)
Fixpoint forEach (l : list nat) (body : nat -> M unit) : M unit :=
  match l with
  | [] => ret tt
  | i :: rest => body i ;; forEach rest body
  end.

(** ** The DOM *)

Fixpoint update_nth {A} (n : nat) (f : A -> A) (l : list A) : list A :=
  match l, n with
  | [], _ => []
  | x :: r, O => f x :: r
  | x :: r, S n' => x :: update_nth n' f r
  end.

Definition contains (c : string) (l : list string) : bool :=
  existsb (String.eqb c) l.

(** [DOMTokenList.add]: the token is appended unless present. *)
Definition token_add (c : string) (l : list string) : list string :=
  if contains c l then l else l ++ [c].

(** [DOMTokenList.remove] *)
Definition token_remove (c : string) (l : list string) : list string :=
  filter (fun x => negb (String.eqb c x)) l.

(** A class name that may be [null]: the DOM turns [null] into the token
    "null". *)
Definition token (o : option string) : string :=
  match o with
  | Some c => c
  | None => "null"%string
  end.

(** [this.items[k]]: an element, or [undefined] out of range. *)
Definition item_at (k : Z) : M (option nat) :=
  fun w => Ok (if (0 <=? k) && (k <? Z.of_nat (length (items w)))
               then Some (Z.to_nat k) else None) w.

Definition on_item (j : nat) (f : Item -> Item) (w : World) : World :=
  set_items (update_nth j f (items w)) w.

(** [item.classList.add(c)]; a [TypeError] when [item] is [undefined]. *)
Definition classList_add (item : option nat) (c : string) : M unit :=
  match item with
  | None => throw
  | Some j => modify (on_item j (fun it => mkItem (token_add c (classList it)) (listeners it)))
  end.

Definition classList_remove (item : option nat) (c : string) : M unit :=
  match item with
  | None => throw
  | Some j => modify (on_item j (fun it => mkItem (token_remove c (classList it)) (listeners it)))
  end.

Definition classList_contains (item : option nat) (c : string) : M bool :=
  match item with
  | None => throw
  | Some j => gets (fun w => match nth_error (items w) j with
                             | Some it => contains c (classList it)
                             | None => false
                             end)
  end.

(** [item.classList.add(this.cls)], [item.classList.remove(this.cls)] and
    [item.classList.contains(this.cls)] for a class name [cls] of the
    configuration. *)
Definition addClass (item : option nat) (cls : Config -> string) : M unit :=
  c <- gets (fun w => cls (cfg w)) ;;
  classList_add item c.

Definition removeClass (item : option nat) (cls : Config -> string) : M unit :=
  c <- gets (fun w => cls (cfg w)) ;;
  classList_remove item c.

Definition containsClass (item : option nat) (cls : Config -> string) : M bool :=
  c <- gets (fun w => cls (cfg w)) ;;
  classList_contains item c.

Definition theTransitioningClass (c : Config) : string := token (transitioningClass c).

Definition addEventListener (item : option nat) (l : Listener) : M unit :=
  match item with
  | None => throw
  | Some j => modify (on_item j (fun it => mkItem (classList it) (listeners it ++ [l])))
  end.

Definition removeEventListener (j : nat) (var : nat) : M unit :=
  modify (on_item j (fun it =>
    mkItem (classList it) (filter (fun l => negb (Nat.eqb (l_var l) var)) (listeners it)))).

Definition on_indicator (j : nat) (f : list string -> list string) (w : World) : World :=
  match indicators w with
  | None => w
  | Some l => set_indicators
                (Some (update_nth j (fun i => mkIndicator (f (i_classList i)) (data_index i)) l)) w
  end.

(** ** Timers *)

Definition setTimeout (fn : TimerFn) (delay : Z) : M Z :=
  fun w =>
    let id := nextTimerId w in
    Ok id (set_nextTimerId (id + 1)
             (set_timers (timers w ++ [mkTimer id (now w + Z.max 0 delay) None fn]) w)).

Definition setInterval (fn : TimerFn) (delay : Z) : M Z :=
  fun w =>
    let id := nextTimerId w in
    Ok id (set_nextTimerId (id + 1)
             (set_timers (timers w ++ [mkTimer id (now w + Z.max 0 delay) (Some delay) fn]) w)).

Definition cancel (id : Z) (l : list Timer) : list Timer :=
  filter (fun t => negb (t_id t =? id)) l.

(** [clearTimeout] and [clearInterval] (one table of handles in a browser). *)
Definition clearTimeout (h : Handle) : M unit :=
  match h with
  | Num id => modify (fun w => set_timers (cancel id (timers w)) w)
  | _ => ret tt
  end.

(** ** Closure variables *)

Definition newBackupTimeoutVar : M nat :=
  fun w => Ok (length (backupTimeoutVars w))
              (set_backupTimeoutVars (backupTimeoutVars w ++ [Undefined]) w).

Definition setBackupTimeoutVar (a : nat) (h : Handle) : M unit :=
  modify (fun w => set_backupTimeoutVars (update_nth a (fun _ => h) (backupTimeoutVars w)) w).

Definition getBackupTimeoutVar (a : nat) : M Handle :=
  gets (fun w => nth a (backupTimeoutVars w) Undefined).

Definition newSelectedLoopTimeoutVar : M nat :=
  fun w => Ok (length (selectedLoopTimeoutVars w))
              (set_selectedLoopTimeoutVars (selectedLoopTimeoutVars w ++ [Undefined]) w).

Definition setSelectedLoopTimeoutVar (a : nat) (h : Handle) : M unit :=
  modify (fun w =>
    set_selectedLoopTimeoutVars (update_nth a (fun _ => h) (selectedLoopTimeoutVars w)) w).

Definition getSelectedLoopTimeoutVar (a : nat) : M Handle :=
  gets (fun w => nth a (selectedLoopTimeoutVars w) Undefined).

(** The parameter [i] of one activation of [transitionToPrevLoop] or
    [transitionToNextLoop]. *)
Definition newIVar (v : Z) : M nat :=
  fun w => Ok (length (iVars w)) (set_iVars (iVars w ++ [v]) w).

(** [++i] *)
Definition preIncrement (a : nat) : M Z :=
  fun w => let v := nth a (iVars w) 0 + 1 in
           Ok v (set_iVars (update_nth a (fun _ => v) (iVars w)) w).

Definition observe (o : Obs) : M unit :=
  modify (fun w => set_trace (o :: trace w) w).

(** ** The class [Slideshow] *)

Definition items_length : M Z := gets (fun w => Z.of_nat (length (items w))).

(** [this.indicators.length]: a [TypeError] when [indicators] is [null]. *)
Definition indicators_length : M nat :=
  fun w => match indicators w with
           | Some l => Ok (length l) w
           | None => Throw w
           end.

Definition indicator_contains (j : nat) (c : string) : M bool :=
  gets (fun w => match indicators w with
                 | Some l => match nth_error l j with
                             | Some i => contains c (i_classList i)
                             | None => false
                             end
                 | None => false
                 end).

(** Lines 73-77. *)
Definition initiateIndicators : M unit :=
  n <- indicators_length ;;
  forEach (seq 0 n) (fun i =>
    modify (fun w => match indicators w with
                     | Some l => set_indicators
                         (Some (update_nth i
                            (fun x => mkIndicator (i_classList x) (Some (Z.of_nat i))) l)) w
                     | None => w
                     end)).

(** Lines 84-92. *)
Definition updateIndicators (selectedIndex : Z) : M unit :=
  n <- indicators_length ;;
  forEach (seq 0 n) (fun i =>
    c <- gets (fun w => selectedIndicatorClass (cfg w)) ;;
    if Z.of_nat i =? selectedIndex
    then modify (on_indicator i (token_add c))
    else b <- indicator_contains i c ;;
         when b (modify (on_indicator i (token_remove c)))).

Fixpoint find_selected (c : string) (l : list Item) (i : Z) : Z :=
  match l with
  | [] => -1
  | it :: rest => if contains c (classList it) then i else find_selected c rest (i + 1)
  end.

(** Lines 99-106. *)
Definition selectedIndexOf (w : World) : Z :=
  find_selected (selectedItemClass (cfg w)) (items w) 0.

Definition getSelectedIndex : M Z := gets selectedIndexOf.

(** Lines 113-120. *)
Definition isAtFront : M bool :=
  selectedIndex <- getSelectedIndex ;;
  ret (selectedIndex =? 0).

(** Lines 127-134. *)
Definition isAtEnd : M bool :=
  selectedIndex <- getSelectedIndex ;;
  n <- items_length ;;
  ret (selectedIndex =? n - 1).

(** [if (this.transitioningTimeout != null) { clearTimeout(this.transitioningTimeout); }]
    (lines 148-150 and 164-166). *)
Definition clearTransitioningTimeout : M unit :=
  h <- gets transitioningTimeout ;;
  when (negb (isNullish h)) (clearTimeout h).

(** [this.transitioningTimeout = setTimeout(function() {...}, 3000);]
    (lines 152-154). *)
Definition armTransitioningTimeout : M unit :=
  id <- setTimeout TfDebounceRelease 3000 ;;
  modify (set_transitioningTimeout (Num id)).

(** Lines 140-157. *)
Definition debounce : M bool :=
  sd <- gets (fun w => shouldDebounce (cfg w)) ;;
  if sd then
    tr <- gets transitioning ;;
    if tr then ret true
    else
      modify (set_transitioning true) ;;
      clearTransitioningTimeout ;;
      armTransitioningTimeout ;;
      ret false
  else ret false.

(** Lines 162-169. *)
Definition endDebounce : M unit :=
  sd <- gets (fun w => shouldDebounce (cfg w)) ;;
  when sd
    (clearTransitioningTimeout ;;
     modify (set_transitioning false)).

(** [if (this.autoTransitionInterval != null) { clearInterval(...); ... = null; }]
    (lines 441-444 and 452-455). *)
Definition clearAutoTransitionInterval : M unit :=
  h <- gets autoTransitionInterval ;;
  when (negb (isNullish h))
    (clearTimeout h ;; modify (set_autoTransitionInterval Null)).

(** [if (this.autoTransitionTimeout != null) { clearTimeout(...); ... = null; }]
    (lines 456-459). *)
Definition clearAutoTransitionTimeout : M unit :=
  h <- gets autoTransitionTimeout ;;
  when (negb (isNullish h))
    (clearTimeout h ;; modify (set_autoTransitionTimeout Null)).

(** [this.autoTransitionInterval = setInterval(function() {...}, this.autoTransitionTime);]
    (lines 446-448). *)
Definition armAutoTransitionInterval : M unit :=
  t <- gets (fun w => autoTransitionTime (cfg w)) ;;
  id <- setInterval TfAutoInterval t ;;
  modify (set_autoTransitionInterval (Num id)).

(** [this.autoTransitionTimeout = setTimeout(function() {...}, this.autoTransitionDelay);]
    (lines 461-465). *)
Definition armAutoTransitionTimeout : M unit :=
  d <- gets (fun w => autoTransitionDelay (cfg w)) ;;
  id <- setTimeout TfAutoResume d ;;
  modify (set_autoTransitionTimeout (Num id)).

(** Lines 440-449. *)
Definition startAutoTransition : M unit :=
  clearAutoTransitionInterval ;;
  armAutoTransitionInterval.

(** Lines 451-466. *)
Definition stopAutoTransition : M unit :=
  clearAutoTransitionInterval ;;
  clearAutoTransitionTimeout ;;
  armAutoTransitionTimeout.

(** [if (this.notransitionClass != null) { this.items[i].classList.add(this.notransitionClass); }]
    (lines 499-501). *)
Definition addNoTransitionClass (i : nat) : M unit :=
  nt <- gets (fun w => notransitionClass (cfg w)) ;;
  match nt with
  | Some c => classList_add (Some i) c
  | None => ret tt
  end.

(** [if (this.notransitionClass != null) { this.items[i].classList.remove(this.notransitionClass); }]
    (lines 526-528). *)
Definition removeNoTransitionClass (i : nat) : M unit :=
  nt <- gets (fun w => notransitionClass (cfg w)) ;;
  match nt with
  | Some c => classList_remove (Some i) c
  | None => ret tt
  end.

(** Lines 491-530.  Reading [offsetHeight] changes nothing the class can
    see. *)
Definition reclauclatePositions (selectedIndex : Z) (shouldFlipPositions : bool) : M unit :=
  n <- gets (fun w => length (items w)) ;;
  forEach (seq 0 n) (fun i =>
    if Z.of_nat i =? selectedIndex then ret tt
    else
      addNoTransitionClass i ;;
      (if shouldFlipPositions then
         if Z.of_nat i >? selectedIndex
         then removeClass (Some i) nextItemClass ;; addClass (Some i) prevItemClass
         else removeClass (Some i) prevItemClass ;; addClass (Some i) nextItemClass
       else
         if Z.of_nat i <? selectedIndex
         then removeClass (Some i) nextItemClass ;; addClass (Some i) prevItemClass
         else removeClass (Some i) prevItemClass ;; addClass (Some i) nextItemClass) ;;
      removeNoTransitionClass i).

(** Lines 539-595.  The listener and the backup timer are the two closures
    created here; their bodies are [onTransitionEnd] and [backupTimeoutFn]
    below. *)
Definition markTransitioning (item : option nat) (endDebounce : bool) (callback : Callback)
  : M unit :=
  tc <- gets (fun w => transitioningClass (cfg w)) ;;
  match tc with
  | None => ret tt
  | Some c =>
      backupTimeout <- newBackupTimeoutVar ;;
      addEventListener item (mkListener backupTimeout endDebounce callback) ;;
      id <- setTimeout (TfBackup backupTimeout callback) 3000 ;;
      setBackupTimeoutVar backupTimeout (Num id) ;;
      addClass item theTransitioningClass
  end.

(** Lines 600-612. *)
Definition resetAllTransitioning : M unit :=
  tc <- gets (fun w => transitioningClass (cfg w)) ;;
  match tc with
  | None => ret tt
  | Some c =>
      n <- gets (fun w => length (items w)) ;;
      forEach (seq 0 n) (fun i =>
        b <- containsClass (Some i) theTransitioningClass ;;
        when b (removeClass (Some i) theTransitioningClass))
  end.

(** The function at lines 359-366 and its mirror at lines 380-387. *)
Definition callFinal (f : Final) : M unit :=
  match f with
  | PrevFinal target =>
      markTransitioning target true CbNull ;;
      removeClass target nextItemClass ;;
      addClass target selectedItemClass
  | NextFinal target =>
      markTransitioning target true CbNull ;;
      removeClass target prevItemClass ;;
      addClass target selectedItemClass
  end.

(** Lines 396-416.  The parameter [i] is captured, and later incremented, by
    the function created at line 408, so it lives in a cell. *)
Definition transitionToPrevLoop (selectedIndex distance i : Z) (callback : Final) : M unit :=
  if i >=? distance then callFinal callback
  else
    current <- item_at (selectedIndex + i) ;;
    ivar <- newIVar i ;;
    markTransitioning current false (CbPrevLoopStep selectedIndex distance ivar callback) ;;
    removeClass current nextItemClass ;;
    addClass current prevItemClass.

(** Lines 418-438. *)
Definition transitionToNextLoop (selectedIndex distance i : Z) (callback : Final) : M unit :=
  if i >=? distance then callFinal callback
  else
    current <- item_at (selectedIndex - i) ;;
    ivar <- newIVar i ;;
    markTransitioning current false (CbNextLoopStep selectedIndex distance ivar callback) ;;
    removeClass current prevItemClass ;;
    addClass current nextItemClass.

(** [if (selectedLoopTimeout != null) { clearTimeout(selectedLoopTimeout); }]
    (lines 224-226). *)
Definition clearSelectedLoopTimeout (selectedLoopTimeout : nat) : M unit :=
  h <- getSelectedLoopTimeoutVar selectedLoopTimeout ;;
  when (negb (isNullish h)) (clearTimeout h).

(** [selectedLoopTimeout = setTimeout(function() {...}, 3000);] (lines 231-233). *)
Definition armSelectedLoopTimeout (selectedLoopTimeout : nat) (nextIndex : Z) : M unit :=
  id <- setTimeout (TfSelectedLoop nextIndex) 3000 ;;
  setSelectedLoopTimeoutVar selectedLoopTimeout (Num id).

(** Calling a function that was passed as [callback]: the bodies of the
    functions at lines 220, 296, 357, 378, 408 and 430. *)
Definition call (cb : Callback) : M unit :=
  match cb with
  | CbNull => ret tt
  | CbForwardDone looping nextIndex selectedLoopTimeout =>
      when looping
        (reclauclatePositions nextIndex false ;;
         clearSelectedLoopTimeout selectedLoopTimeout)
  | CbBackwardDone looping prevIndex =>
      when looping (reclauclatePositions prevIndex false)
  | CbToPrev selectedIndex distance target =>
      transitionToPrevLoop selectedIndex distance 1 (PrevFinal target)
  | CbToNext selectedIndex distance target =>
      transitionToNextLoop selectedIndex distance 1 (NextFinal target)
  | CbPrevLoopStep selectedIndex distance i callback =>
      i' <- preIncrement i ;;
      transitionToPrevLoop selectedIndex distance i' callback
  | CbNextLoopStep selectedIndex distance i callback =>
      i' <- preIncrement i ;;
      transitionToNextLoop selectedIndex distance i' callback
  end.

(** [if (callback != null) callback();] in the tracker whose variable is
    [var]. *)
Definition invoke (var : nat) (cb : Callback) : M unit :=
  match cb with
  | CbNull => ret tt
  | _ => observe (Invoked var) ;; call cb
  end.

(** Lines 565-568 and 582-585. *)
Definition releaseDebounce : M unit :=
  h <- gets transitioningTimeout ;;
  sd <- gets (fun w => shouldDebounce (cfg w)) ;;
  when (negb (isNullish h) && sd)
    (modify (set_transitioning false) ;; clearTimeout h).

(** [clearTimeout(backupTimeout);] (line 560). *)
Definition clearBackupTimeout (var : nat) : M unit :=
  h <- getBackupTimeoutVar var ;;
  clearTimeout h.

(** Lines 550-575: the listener [l], registered on [item], runs. *)
Definition onTransitionEnd (item : nat) (l : Listener) : M unit :=
  removeClass (Some item) theTransitioningClass ;;
  removeEventListener item (l_var l) ;;
  backupTimeout <- getBackupTimeoutVar (l_var l) ;;
  if isNullish backupTimeout then ret tt
  else
    clearBackupTimeout (l_var l) ;;
    when (l_endDebounce l) releaseDebounce ;;
    invoke (l_var l) (l_callback l).

(** Lines 578-591. *)
Definition backupTimeoutFn (var : nat) (callback : Callback) : M unit :=
  setBackupTimeoutVar var Null ;;
  releaseDebounce ;;
  invoke var callback.

(** Lines 175-246. *)
Definition transitionForward (auto : bool) : M unit :=
  blocked <- debounce ;;
  if blocked then ret tt
  else
    resetAllTransitioning ;;
    sat <- gets (fun w => shouldAutoTransition (cfg w)) ;;
    when (negb auto && sat) stopAutoTransition ;;
    selectedIndex <- getSelectedIndex ;;
    selected <- item_at selectedIndex ;;
    n <- items_length ;;
    lp <- gets (fun w => loop (cfg w)) ;;
    if (selectedIndex + 1 =? n) && negb lp then endDebounce
    else
      let looping := selectedIndex + 1 =? n in
      let nextIndex := if looping then 0 else selectedIndex + 1 in
      next <- item_at nextIndex ;;
      updateIndicators nextIndex ;;
      when looping (reclauclatePositions selectedIndex true) ;;
      selectedLoopTimeout <- newSelectedLoopTimeoutVar ;;
      markTransitioning selected false (CbForwardDone looping nextIndex selectedLoopTimeout) ;;
      when looping (armSelectedLoopTimeout selectedLoopTimeout nextIndex) ;;
      markTransitioning next true CbNull ;;
      removeClass selected selectedItemClass ;;
      addClass selected prevItemClass ;;
      removeClass next nextItemClass ;;
      addClass next selectedItemClass.

(** Lines 252-313. *)
Definition transitionBackward (auto : bool) : M unit :=
  blocked <- debounce ;;
  if blocked then ret tt
  else
    resetAllTransitioning ;;
    sat <- gets (fun w => shouldAutoTransition (cfg w)) ;;
    when (negb auto && sat) stopAutoTransition ;;
    selectedIndex <- getSelectedIndex ;;
    selected <- item_at selectedIndex ;;
    n <- items_length ;;
    lp <- gets (fun w => loop (cfg w)) ;;
    if (selectedIndex - 1 <? 0) && negb lp then endDebounce
    else
      let looping := selectedIndex - 1 <? 0 in
      let prevIndex := if looping then n - 1 else selectedIndex - 1 in
      prev <- item_at prevIndex ;;
      updateIndicators prevIndex ;;
      when looping (reclauclatePositions selectedIndex true) ;;
      markTransitioning selected false (CbBackwardDone looping prevIndex) ;;
      markTransitioning prev true CbNull ;;
      removeClass selected selectedItemClass ;;
      addClass selected nextItemClass ;;
      removeClass prev prevItemClass ;;
      addClass prev selectedItemClass.

(** Lines 319-394; [targetIndex] is a number. *)
Definition transitionTo (targetIndex : Z) : M unit :=
  selectedIndex <- getSelectedIndex ;;
  if selectedIndex =? targetIndex then ret tt
  else
    blocked <- debounce ;;
    if blocked then ret tt
    else
      resetAllTransitioning ;;
      sat <- gets (fun w => shouldAutoTransition (cfg w)) ;;
      when sat stopAutoTransition ;;
      updateIndicators targetIndex ;;
      selected <- item_at selectedIndex ;;
      target <- item_at targetIndex ;;
      if selectedIndex <? targetIndex then
        markTransitioning selected false
          (CbToPrev selectedIndex (targetIndex - selectedIndex) target) ;;
        removeClass selected selectedItemClass ;;
        addClass selected prevItemClass
      else
        markTransitioning selected false
          (CbToNext selectedIndex (selectedIndex - targetIndex) target) ;;
        removeClass selected selectedItemClass ;;
        addClass selected nextItemClass.

(** Lines 468-483; [transitionForward()] and [transitionBackward()] take the
    default [auto = true]. *)
Definition autoTransition : M unit :=
  lp <- gets (fun w => loop (cfg w)) ;;
  if lp then transitionForward true
  else
    atEnd <- isAtEnd ;;
    (if atEnd then modify (set_autoTransitionDirection 0)
     else atFront <- isAtFront ;;
          when atFront (modify (set_autoTransitionDirection 1))) ;;
    d <- gets autoTransitionDirection ;;
    if d =? 1 then transitionForward true else transitionBackward true.

(** Lines 20-67: the state a fresh browser page is in after
    [new Slideshow(items, indicators, ...)] ran, and whether it threw. *)
Definition newWorld (c : Config) (its : list Item) (inds : option (list Indicator)) : World :=
  mkWorld c its inds false Null 1 Null Null [] 1 0 [] [] [] [] [].

Definition constructor : M unit :=
  inds <- gets indicators ;;
  match inds with
  | Some l =>
      n <- gets (fun w => length (items w)) ;;
      if negb (Nat.eqb n (length l))
      then modify (fun w => set_console
             (console w ++
              ["Invalid number of indicators! Number of indicators must match number of items."%string]) w)
      else initiateIndicators
  | None => ret tt
  end ;;
  modify (set_autoTransitionDirection 1) ;;
  modify (set_autoTransitionInterval Null) ;;
  modify (set_autoTransitionTimeout Null) ;;
  startAutoTransition.

Definition new_Slideshow (c : Config) (its : list Item) (inds : option (list Indicator))
  : Res unit :=
  constructor (newWorld c its inds).

(** ** The browser's event loop *)

(** [clearTimeout(object.autoTransitionTimeout); object.autoTransitionTimeout = null;]
    (lines 463-464). *)
Definition resetAutoTransitionTimeout : M unit :=
  h <- gets autoTransitionTimeout ;;
  clearTimeout h ;;
  modify (set_autoTransitionTimeout Null).

Definition timerBody (fn : TimerFn) : M unit :=
  match fn with
  | TfDebounceRelease => modify (set_transitioning false)
  | TfSelectedLoop nextIndex => reclauclatePositions nextIndex false
  | TfBackup var callback => backupTimeoutFn var callback
  | TfAutoInterval => autoTransition
  | TfAutoResume =>
      startAutoTransition ;;
      resetAutoTransitionTimeout
  end.

Definition listenersOf (j : nat) (w : World) : list Listener :=
  match nth_error (items w) j with
  | Some it => listeners it
  | None => []
  end.

(** The function object [var] if it is still registered on item [j]. *)
Definition registered (j : nat) (var : nat) (w : World) : option Listener :=
  find (fun l => Nat.eqb (l_var l) var) (listenersOf j w).

(** Dispatch of [transitionend] at item [j]: the listeners registered when
    the dispatch starts run in order, each unless it was removed meanwhile;
    an exception in one is reported and the next still runs. *)
Fixpoint dispatch (j : nat) (snapshot : list nat) (w : World) : World :=
  match snapshot with
  | [] => w
  | var :: rest =>
      dispatch j rest
        (match registered j var w with
         | Some l => outcome (onTransitionEnd j l w)
         | None => w
         end)
  end.

Definition lookupTimer (id : Z) (w : World) : option Timer :=
  find (fun t => t_id t =? id) (timers w).

(** A timer runs when no pending timer is due before it; the clock is then
    at its due time, or later if the page was busy. *)
Definition fire (id : Z) (w : World) : option World :=
  match lookupTimer id w with
  | None => None
  | Some t =>
      if forallb (fun t' => t_due t <=? t_due t') (timers w) then
        let clock := Z.max (now w) (t_due t) in
        let rest :=
          match t_period t with
          | None => cancel id (timers w)
          | Some p => cancel id (timers w) ++ [mkTimer id (clock + Z.max 0 p) (Some p) (t_fn t)]
          end in
        Some (outcome (timerBody (t_fn t) (set_now clock (set_timers rest w))))
      else None
  end.

Inductive Event : Type :=
| CallForward (auto : bool)
| CallBackward (auto : bool)
| CallTo (targetIndex : Z)
| TransitionEnd (j : nat)
| Fire (id : Z)
| Wait (t : Z).

(** One step of the page; [None] when the event cannot happen in [w]. *)
Definition step (e : Event) (w : World) : option World :=
  match e with
  | CallForward auto => Some (outcome (transitionForward auto w))
  | CallBackward auto => Some (outcome (transitionBackward auto w))
  | CallTo k => Some (outcome (transitionTo k w))
  | TransitionEnd j =>
      if (j <? length (items w))%nat
      then Some (dispatch j (map l_var (listenersOf j w)) w) else None
  | Fire id => fire id w
  | Wait t =>
      if (now w <=? t) && forallb (fun t' => t <=? t_due t') (timers w)
      then Some (set_now t w) else None
  end.

Fixpoint run (es : list Event) (w : World) : option World :=
  match es with
  | [] => Some w
  | e :: rest => match step e w with
                 | Some w' => run rest w'
                 | None => None
                 end
  end.


(** ** [Slideshow.getItemsFromElement] (lines 623-637)

    The static helper reads the document and touches no slideshow.  The
    document is seen through [getElementById(id).children]: for an id, the
    child elements of the element that has it, or nothing when
    [getElementById] returns [null].  The function works on any kind of
    element, of which it reads the class list only. *)

Inductive Outcome (A : Type) : Type :=
| Returns (a : A)
| TypeError
| OutOfFuel.
Arguments Returns {A} a.
Arguments TypeError {A}.
Arguments OutOfFuel {A}.

(** [children.splice(i, 1)] for [i >= 0]: the element at [i] is taken out;
    nothing happens past the end. *)
Fixpoint splice1 {A} (i : nat) (l : list A) : list A :=
  match l, i with
  | [], _ => []
  | _ :: r, O => r
  | x :: r, S i' => x :: splice1 i' r
  end.

Section GetItemsFromElement.
Variable Element : Type.
Variable classes : Element -> list string.

Definition Document : Type := string -> option (list Element).

(** The loop at lines 628-633, [fuel] bounding the number of iterations:
    [children.length] is read anew at each test, and after a [splice] the
    index is decremented and then incremented by the loop header. *)
Fixpoint filterLoop (fuel : nat) (slideshowItemClass : string)
    (children : list Element) (i : Z) : Outcome (list Element) :=
  match fuel with
  | O => OutOfFuel
  | S fuel' =>
      if i <? Z.of_nat (length children) then
        match (if 0 <=? i then nth_error children (Z.to_nat i) else None) with
        | None => TypeError
        | Some child =>
            if negb (contains slideshowItemClass (classes child))
            then filterLoop fuel' slideshowItemClass
                   (splice1 (Z.to_nat i) children) (i - 1 + 1)
            else filterLoop fuel' slideshowItemClass children (i + 1)
        end
      else Returns children
  end.

Definition getItemsFromElement (fuel : nat) (document : Document)
    (slideshowId slideshowItemClass : string) : Outcome (list Element) :=
  match document slideshowId with
  | None => TypeError
  | Some children => filterLoop fuel slideshowItemClass children 0
  end.
End GetItemsFromElement.

Arguments filterLoop {Element} classes fuel slideshowItemClass children i.
Arguments getItemsFromElement {Element} classes fuel document slideshowId slideshowItemClass.

(** ** [example.js]

    [window.onload] builds the slideshow of the page from the children of
    two containers.  The document is seen as [getItemsFromElement] reads
    it, once for the elements that become items and once for those that
    become indicators; the arguments are evaluated in order, so that a
    [TypeError] of the first call comes first. *)

Definition exampleArguments : Config :=
  mkConfig true true true 7500 10000
    "slideshow-indicator-selected"
    "slideshow-item-prev" "slideshow-item-selected" "slideshow-item-next"
    (Some "slideshow-item-transitioning"%string)
    (Some "slideshow-item-notransition"%string).

Definition onload (fuel : nat)
    (documentItems : string -> option (list Item))
    (documentIndicators : string -> option (list Indicator)) : Outcome (Res unit) :=
  match getItemsFromElement classList fuel documentItems
          "quote-slideshow" "slideshow-item" with
  | Returns its =>
      match getItemsFromElement i_classList fuel documentIndicators
              "quote-slideshow-indicators" "slideshow-indicator" with
      | Returns inds => Returns (new_Slideshow exampleArguments its (Some inds))
      | TypeError => TypeError
      | OutOfFuel => OutOfFuel
      end
  | TypeError => TypeError
  | OutOfFuel => OutOfFuel
  end.
(** ** Vocabulary of the specification *)

(** A computation respects a relation between states when the state it
    leaves, returning or throwing, is related to the state it started in. *)
Definition respects (R : World -> World -> Prop) {A} (m : M A) : Prop :=
  forall w, R w (outcome (m w)).

Inductive Role : Type :=
| Previous
| Selected
| Next.

Definition roleClass (c : Config) (r : Role) : string :=
  match r with
  | Previous => prevItemClass c
  | Selected => selectedItemClass c
  | Next => nextItemClass c
  end.



Definition hasClass (c : string) (it : Item) : bool := contains c (classList it).

(** Number of items that bear the selected role. *)
Definition selectedCount (w : World) : nat :=
  length (filter (hasClass (selectedItemClass (cfg w))) (items w)).



(** The page of [example.js], with the flags left open. *)
Definition exampleConfig (lp db sat withNoTransition : bool) : Config :=
  mkConfig lp db sat 7500 10000
    "slideshow-indicator-selected"
    "slideshow-item-prev" "slideshow-item-selected" "slideshow-item-next"
    (Some "slideshow-item-transitioning"%string)
    (if withNoTransition then Some "slideshow-item-notransition"%string else None).

Definition slide (role : string) : Item := mkItem ["slideshow-item"%string; role] [].
Definition dot : Indicator := mkIndicator ["slideshow-indicator"%string] None.

Definition slides (c : Config) (rs : list Role) : list Item :=
  map (fun r => slide (roleClass c r)) rs.

(** A page built from a configuration and the initial role of each item,
    with one indicator per item. *)
Definition page (c : Config) (rs : list Role) : World :=
  outcome (new_Slideshow c (slides c rs) (Some (map (fun _ => dot) rs))).



(** The trackers still waiting: variable and continuation of every pending
    backup timer. *)
Definition pendingBackups (w : World) : list (nat * Callback) :=
  flat_map (fun t => match t_fn t with
                     | TfBackup v cb => [(v, cb)]
                     | _ => []
                     end) (timers w).

(** Settled: the debounce flag is clear and no tracker or loop-repair timer
    is pending. *)
Definition settled (w : World) : bool :=
  negb (transitioning w) &&
  forallb (fun t => match t_fn t with
                    | TfBackup _ _ | TfSelectedLoop _ => false
                    | _ => true
                    end) (timers w).

Definition classesOf (j : nat) (w : World) : list string :=
  match nth_error (items w) j with
  | Some it => classList it
  | None => []
  end.

(** Every [transitionend] listener attached to some item. *)
Definition allListeners (w : World) : list Listener :=
  concat (map listeners (items w)).


(** ** Well-formed states of the page

    The variables that hold timer handles, and the timer function each may
    refer to. *)
Inductive Slot : Type :=
| SDebounce
| SInterval
| SResume
| SLoop (a : nat)
| SBackup (a : nat).

Definition slotValue (w : World) (s : Slot) : Handle :=
  match s with
  | SDebounce => transitioningTimeout w
  | SInterval => autoTransitionInterval w
  | SResume => autoTransitionTimeout w
  | SLoop a => nth a (selectedLoopTimeoutVars w) Undefined
  | SBackup a => nth a (backupTimeoutVars w) Undefined
  end.

Definition fits (fn : TimerFn) (s : Slot) : Prop :=
  match fn, s with
  | TfDebounceRelease, SDebounce => True
  | TfSelectedLoop _, SLoop _ => True
  | TfBackup a _, SBackup b => a = b
  | TfAutoInterval, SInterval => True
  | TfAutoResume, SResume => True
  | _, _ => False
  end.

Definition isBackup (fn : TimerFn) : bool :=
  match fn with
  | TfBackup _ _ => true
  | _ => false
  end.

Definition isBackupSlot (s : Slot) : bool :=
  match s with
  | SBackup _ => true
  | _ => false
  end.

(** What the browser and the class maintain between them: handles are
    numbered by one counter and name at most one pending timer; a variable
    holding a handle refers to a timer of its own kind, if to any; a pending
    backup timer is recorded in its own [backupTimeout] variable; a listener
    function is registered on one item only, and one whose variable still
    holds a handle has its backup timer pending, with the same
    continuation; the trace mentions existing trackers only. *)
Record WF (w : World) : Prop := mkWF {
  wf_ids : forall t, In t (timers w) -> t_id t < nextTimerId w;
  wf_due : forall t, In t (timers w) -> now w <= t_due t;
  wf_unique : NoDup (map t_id (timers w));
  wf_oneshot : forall t, In t (timers w) -> isBackup (t_fn t) = true -> t_period t = None;
  wf_slots : forall s id, slotValue w s = Num id ->
               id < nextTimerId w /\
               forall t, In t (timers w) -> t_id t = id -> fits (t_fn t) s;
  wf_backups : forall t a cb, In t (timers w) -> t_fn t = TfBackup a cb ->
               nth a (backupTimeoutVars w) Undefined = Num (t_id t);
  wf_vars : forall j L, In L (listenersOf j w) ->
               (l_var L < length (backupTimeoutVars w))%nat;
  wf_inj : forall j j' L L', In L (listenersOf j w) -> In L' (listenersOf j' w) ->
               l_var L = l_var L' -> j = j';
  wf_live : forall j L id, In L (listenersOf j w) ->
               nth (l_var L) (backupTimeoutVars w) Undefined = Num id ->
               exists t, In t (timers w) /\ t_id t = id;
  wf_callback : forall j L t cb, In L (listenersOf j w) -> In t (timers w) ->
               t_fn t = TfBackup (l_var L) cb -> l_callback L = cb;
  wf_trace : forall v, In (Invoked v) (trace w) ->
               (v < length (backupTimeoutVars w))%nat
}.

(** What code other than a tracker's own listener and backup timer does to
    the trackers: it keeps the state well formed, leaves every existing
    [backupTimeout] variable, backup timer and listener alone, numbers new
    timers freshly, and calls no continuation. *)
Definition Ext (w w' : World) : Prop :=
  WF w ->
  WF w' /\
  cfg w' = cfg w /\
  now w' = now w /\
  nextTimerId w <= nextTimerId w' /\
  (forall t, In t (timers w') -> In t (timers w) \/ nextTimerId w <= t_id t) /\
  (forall t, isBackup (t_fn t) = true -> In t (timers w) -> In t (timers w')) /\
  (length (backupTimeoutVars w) <= length (backupTimeoutVars w'))%nat /\
  (forall a, (a < length (backupTimeoutVars w))%nat ->
             nth a (backupTimeoutVars w') Undefined = nth a (backupTimeoutVars w) Undefined) /\
  (forall j L, (l_var L < length (backupTimeoutVars w))%nat ->
               (In L (listenersOf j w') <-> In L (listenersOf j w))) /\
  trace w' = trace w.





(** The start of [onTransitionEnd] (lines 552-553): the tag and the listener
    function are removed from the item. *)
Definition detached (j var : nat) (w : World) : World :=
  on_item j (fun it =>
      mkItem (classList it) (filter (fun l => negb (Nat.eqb (l_var l) var)) (listeners it)))
    (on_item j (fun it =>
      mkItem (token_remove (theTransitioningClass (cfg w)) (classList it)) (listeners it)) w).

(** The table of timers once timer [t] was taken out to run at [clock]. *)
Definition afterFiring (t : Timer) (clock : Z) (l : list Timer) : list Timer :=
  match t_period t with
  | None => cancel (t_id t) l
  | Some p => cancel (t_id t) l ++ [mkTimer (t_id t) (clock + Z.max 0 p) (Some p) (t_fn t)]
  end.

(** ** The selected role along a run *)


(** Which items bear the selected class. *)
Definition selMap (w : World) : list bool :=
  map (hasClass (selectedItemClass (cfg w))) (items w).

Definition ones (l : list bool) : nat := length (filter (fun b => b) l).



















(** ** The loops over items and indicators *)

(** [f i x] for each element [x] at index [i], indices counted from [a]. *)
Fixpoint mapFrom {A} (a : nat) (f : nat -> A -> A) (l : list A) : list A :=
  match l with
  | [] => []
  | x :: r => f a x :: mapFrom (S a) f r
  end.




(** What [initiateIndicators] leaves of indicator [i]. *)
Definition indexedIndicator (i : nat) (x : Indicator) : Indicator :=
  mkIndicator (i_classList x) (Some (Z.of_nat i)).

(** The diagnostic of the constructor. *)
Definition indicatorCountError : string :=
  "Invalid number of indicators! Number of indicators must match number of items.".

(** The auto-advance timer a new slideshow starts with. *)
Definition firstTick (c : Config) : Timer :=
  mkTimer 1 (Z.max 0 (autoTransitionTime c)) (Some (autoTransitionTime c)) TfAutoInterval.

(** ** Calls *)






(** ** Timers and their handles along a run *)

(** The three kinds of timer the object itself keeps a handle of. *)
Definition ownSlot (fn : TimerFn) : option Slot :=
  match fn with
  | TfDebounceRelease => Some SDebounce
  | TfAutoInterval => Some SInterval
  | TfAutoResume => Some SResume
  | _ => None
  end.

(** Every pending timer of these kinds is the one its field holds the
    handle of; auto-advance is not both ticking and waiting to resume;
    while the debounce flag is set its release timer is pending, due within
    3000 ms; only the auto-advance timer repeats; and a release timer is
    pending only while the flag is set. *)
Definition Orderly (w : World) : Prop :=
  (forall t s, In t (timers w) -> ownSlot (t_fn t) = Some s ->
               slotValue w s = Num (t_id t)) /\
  (forall t t', In t (timers w) -> In t' (timers w) ->
                t_fn t = TfAutoInterval -> t_fn t' = TfAutoResume -> False) /\
  (transitioning w = true ->
   exists t, In t (timers w) /\ t_fn t = TfDebounceRelease /\ t_due t <= now w + 3000) /\
  (forall t, In t (timers w) -> t_fn t <> TfAutoInterval -> t_period t = None) /\
  (forall t, In t (timers w) -> t_fn t = TfDebounceRelease -> transitioning w = true).

(** Code that keeps the timers in order. *)
Definition Tidy (w w' : World) : Prop :=
  Ext w w' /\ (WF w -> Orderly w -> Orderly w').

(** The part of a state the timer discipline is about. *)
Definition sameTimers (w w' : World) : Prop :=
  timers w' = timers w /\ now w' = now w /\ transitioning w' = transitioning w /\
  transitioningTimeout w' = transitioningTimeout w /\
  autoTransitionInterval w' = autoTransitionInterval w /\
  autoTransitionTimeout w' = autoTransitionTimeout w.

(** ** Auto-advance *)









(** ** Where a [transitionTo] chain ends *)





(** * Proofs *)

(** ** Lists, tokens *)

Lemma update_nth_length {A} (n : nat) (f : A -> A) (l : list A) :
  length (update_nth n f l) = length l.
Proof.
  revert n; induction l as [|x r IH]; intros [|n]; simpl; auto.
Qed.


Lemma nth_update_nth {A} (n m : nat) (v d : A) (l : list A) :
  nth m (update_nth n (fun _ => v) l) d =
  if Nat.eqb n m && (m <? length l)%nat then v else nth m l d.
Proof.
  revert n m; induction l as [|x r IH]; intros [|n] [|m]; simpl; auto.
  rewrite andb_false_r; reflexivity.
Qed.

Lemma update_nth_map {A B} (g : A -> B) (n : nat) (f : A -> A) (l : list A) :
  (forall x, g (f x) = g x) -> map g (update_nth n f l) = map g l.
Proof.
  intros H; revert n; induction l as [|x r IH]; intros [|n]; simpl; auto.
  - rewrite H; reflexivity.
  - rewrite IH; reflexivity.
Qed.

Lemma contains_In (c : string) (l : list string) : contains c l = true <-> In c l.
Proof.
  unfold contains; rewrite existsb_exists; split.
  - intros [x [Hx He]]. apply String.eqb_eq in He; subst; exact Hx.
  - intros H; exists c; split; [exact H | apply String.eqb_refl].
Qed.




(** ** Computations *)

Lemma outcome_bind {A B} (m : M A) (f : A -> M B) (w : World) :
  outcome (bind m f w) =
  match m w with
  | Ok a w' => outcome (f a w')
  | Throw w' => w'
  end.
Proof. unfold bind; destruct (m w); reflexivity. Qed.

Lemma bind_ok {A B} (m : M A) (f : A -> M B) (w w' : World) (a : A) :
  m w = Ok a w' -> bind m f w = f a w'.
Proof. intros H; unfold bind; rewrite H; reflexivity. Qed.


Lemma bind_gets {A B} (g : World -> A) (f : A -> M B) (w : World) :
  bind (gets g) f w = f (g w) w.
Proof. reflexivity. Qed.


Lemma bind_modify {B} (g : World -> World) (f : unit -> M B) (w : World) :
  bind (modify g) f w = f tt (g w).
Proof. reflexivity. Qed.


(** What every part of a computation respects, the computation respects,
    whether it returns or throws. *)
Section Respect.
Variable R : World -> World -> Prop.
Hypothesis R_refl : forall w, R w w.
Hypothesis R_trans : forall a b c, R a b -> R b c -> R a c.

Lemma respects_ret {A} (a : A) : respects R (ret a).
Proof. intros w; apply R_refl. Qed.

Lemma respects_throw {A} : respects R (@throw A).
Proof. intros w; apply R_refl. Qed.

Lemma respects_gets {A} (f : World -> A) : respects R (gets f).
Proof. intros w; apply R_refl. Qed.

Lemma respects_item_at (k : Z) : respects R (item_at k).
Proof. intros w; apply R_refl. Qed.

Lemma respects_modify (f : World -> World) :
  (forall w, R w (f w)) -> respects R (modify f).
Proof. intros H w; apply H. Qed.

Lemma respects_bind {A B} (m : M A) (f : A -> M B) :
  respects R m -> (forall a, respects R (f a)) -> respects R (bind m f).
Proof.
  intros Hm Hf w. rewrite outcome_bind.
  specialize (Hm w). destruct (m w) as [a w'|w']; simpl in Hm.
  - eapply R_trans; [exact Hm | apply Hf].
  - exact Hm.
Qed.

Lemma respects_when (b : bool) (m : M unit) : respects R m -> respects R (when b m).
Proof. intros H; destruct b; simpl; [exact H | apply respects_ret]. Qed.

Lemma respects_forEach (l : list nat) (body : nat -> M unit) :
  (forall i, respects R (body i)) -> respects R (forEach l body).
Proof.
  intros H; induction l as [|i r IH]; simpl.
  - apply respects_ret.
  - apply respects_bind; auto.
Qed.

Lemma respects_indicators_length : respects R indicators_length.
Proof. intros w; unfold indicators_length; destruct (indicators w); apply R_refl. Qed.

Lemma respects_indicator_contains j c : respects R (indicator_contains j c).
Proof. apply respects_gets. Qed.

Lemma respects_classList_contains item c : respects R (classList_contains item c).
Proof. destruct item; [apply respects_gets | apply respects_throw]. Qed.
End Respect.

(** Splits a goal [respects R m] along the structure of [m]; [leaf] closes
    the parts that touch the state. *)
Ltac respects_with Rrefl Rtrans leaf :=
  repeat first
    [ apply (respects_ret _ Rrefl)
    | apply (respects_throw _ Rrefl)
    | apply (respects_gets _ Rrefl)
    | apply (respects_item_at _ Rrefl)
    | apply (respects_indicators_length _ Rrefl)
    | apply (respects_indicator_contains _ Rrefl)
    | apply (respects_classList_contains _ Rrefl)
    | solve [leaf]
    | apply (respects_when _ Rrefl)
    | apply (respects_forEach _ Rrefl Rtrans); intro
    | apply (respects_bind _ Rtrans); [ | intro ]
    | match goal with
      | |- respects _ (if ?b then _ else _) => destruct b
      | |- respects _ (match ?x with _ => _ end) => destruct x
      | |- respects _ (let _ := _ in _) => cbv zeta
      end ].

(** ** The guards: same index, no transitioning class, debounce *)

(** C8.  [transitionTo(k)] when the selected index is already [k] returns
    at once: the whole state (role tags, indicators, timers, flags) is the
    state before the call. *)
Theorem transitionTo_selected_is_noop (w : World) (k : Z) :
  selectedIndexOf w = k -> transitionTo k w = Ok tt w.
Proof.
  intros H. unfold transitionTo, bind, getSelectedIndex, gets.
  rewrite H, Z.eqb_refl. reflexivity.
Qed.

Lemma transitionTo_selected_is_noop_witness :
  let w := page (exampleConfig false true true true) [Previous; Selected; Next] in
  selectedIndexOf w = 1 /\ transitionTo 1 w = Ok tt w.
Proof.
  split; [reflexivity | apply transitionTo_selected_is_noop; reflexivity].
Defined.

Lemma markTransitioning_unset (w : World) item endDebounce callback :
  transitioningClass (cfg w) = None ->
  markTransitioning item endDebounce callback w = Ok tt w.
Proof.
  intros H. unfold markTransitioning, bind, gets. rewrite H. reflexivity.
Qed.

Lemma debounce_blocked (w : World) :
  shouldDebounce (cfg w) = true -> transitioning w = true -> debounce w = Ok true w.
Proof.
  intros Hd Ht. unfold debounce, bind, gets. rewrite Hd, Ht. reflexivity.
Qed.

Lemma debounce_disabled (w : World) :
  shouldDebounce (cfg w) = false -> debounce w = Ok false w.
Proof.
  intros Hd. unfold debounce, bind, gets. rewrite Hd. reflexivity.
Qed.

(** What an admitted request leaves behind. *)
Lemma debounce_admitted (w : World) :
  shouldDebounce (cfg w) = true -> transitioning w = false ->
  debounce w =
  Ok false
    (set_transitioningTimeout (Num (nextTimerId w))
       (outcome (setTimeout TfDebounceRelease 3000
          (outcome (clearTransitioningTimeout (set_transitioning true w)))))).
Proof.
  intros Hd Ht. unfold debounce, bind, gets. rewrite Hd, Ht.
  unfold modify, clearTransitioningTimeout, armTransitioningTimeout, bind, gets, when.
  destruct (transitioningTimeout w) eqn:Hh; simpl; rewrite ?Hh; reflexivity.
Qed.

(** C3.  With debouncing enabled and the flag set, [debounce] reports
    "blocked" and [transitionForward] returns with the state untouched; with
    the flag clear the request is admitted, the flag is set and a one-shot
    timer due 3000 ms later is armed whose function clears the flag; with
    debouncing disabled the guard admits every request and changes
    nothing. *)
Theorem debounce_guard (w : World) :
  (shouldDebounce (cfg w) = true -> transitioning w = true ->
     debounce w = Ok true w /\
     forall auto, transitionForward auto w = Ok tt w) /\
  (shouldDebounce (cfg w) = true -> transitioning w = false ->
     exists w', debounce w = Ok false w' /\
       transitioning w' = true /\
       transitioningTimeout w' = Num (nextTimerId w) /\
       In (mkTimer (nextTimerId w) (now w + 3000) None TfDebounceRelease) (timers w') /\
       forall u, timerBody TfDebounceRelease u = Ok tt (set_transitioning false u)) /\
  (shouldDebounce (cfg w) = false -> debounce w = Ok false w).
Proof.
  split; [|split].
  - intros Hd Ht. split; [apply debounce_blocked; assumption|].
    intros auto. unfold transitionForward, bind.
    rewrite debounce_blocked by assumption. reflexivity.
  - intros Hd Ht. eexists. split; [apply debounce_admitted; assumption|].
    unfold clearTransitioningTimeout, bind, gets, when.
    destruct (transitioningTimeout w) eqn:Hh; simpl; rewrite ?Hh; simpl;
      (repeat split; try reflexivity; apply in_or_app; right; left; reflexivity).
  - apply debounce_disabled.
Qed.

Lemma debounce_guard_witness :
  let idlePage := page (exampleConfig true true true true)
                       [Selected; Next; Next; Next; Next] in
  let busy := outcome (transitionForward true idlePage) in
  let free := page (exampleConfig true false true true)
                   [Selected; Next; Next; Next; Next] in
  (transitioning busy = true /\ forall auto, transitionForward auto busy = Ok tt busy) /\
  (exists w', debounce idlePage = Ok false w' /\ transitioning w' = true) /\
  debounce free = Ok false free.
Proof.
  intros idlePage busy free. split; [|split].
  - split; [reflexivity|].
    apply (proj1 (debounce_guard busy)); reflexivity.
  - destruct (proj1 (proj2 (debounce_guard idlePage)) eq_refl eq_refl)
      as [w' [H1 [H2 _]]].
    exists w'; split; assumption.
  - apply (proj2 (proj2 (debounce_guard free))); reflexivity.
Defined.

(** ** Scenarios of the specification, run on the page of [example.js] *)


Ltac reached := eexists; split; [vm_compute; reflexivity | ].






(** C9.  The constructor accepts [indicators = null] (its guard at line 54
    skips them), but [updateIndicators] reads [this.indicators.length]
    unguarded: on such a slideshow every transition that gets past its
    guards throws a [TypeError] to the caller. *)
Theorem null_indicators_throw :
  let c := exampleConfig true true true true in
  let r := new_Slideshow c (slides c [Previous; Selected; Next]) None in
  threw r = false /\
  threw (transitionForward true (outcome r)) = true /\
  threw (transitionBackward true (outcome r)) = true /\
  threw (transitionTo 2 (outcome r)) = true.
Proof. repeat split; reflexivity. Qed.

(** Against C1: the signal never arrives, the backup timers of both tracked
    items run at 3000 ms and the continuation is called, yet at 4000 ms the
    outgoing item still carries the transitioning tag: the backup timer does
    not remove it. *)
Lemma backup_timer_leaves_tag :
  let w0 := page (exampleConfig false true true true) [Selected; Next; Next] in
  let w1 := outcome (transitionForward true w0) in
  exists w2, run [Fire 3; Fire 4; Wait 4000] w1 = Some w2 /\
    now w2 = 4000 /\
    pendingBackups w2 = [] /\
    trace w2 = [Invoked 0%nat] /\
    contains "slideshow-item-transitioning" (classesOf 0 w2) = true.
Proof. reached. repeat split; reflexivity. Qed.

(** Against C2: without a transitioning class a completed [transitionTo]
    leaves a settled page on which no item is selected. *)
Lemma no_class_transitionTo_loses_selection :
  let c := mkConfig false true true 7500 10000
             "slideshow-indicator-selected"
             "slideshow-item-prev" "slideshow-item-selected" "slideshow-item-next"
             None None in
  let w0 := page c [Selected; Next; Next] in
  selectedCount w0 = 1%nat /\
  exists w, run [CallTo 2; Fire 2] w0 = Some w /\
    settled w = true /\ selectedCount w = 0%nat.
Proof. split; [reflexivity|]. reached. split; reflexivity. Qed.


(** ** Without a transitioning class the tracker never exists *)



Lemma pendingBackups_app l t w :
  timers w = l ++ [t] ->
  pendingBackups w = flat_map (fun t => match t_fn t with
                                        | TfBackup v cb => [(v, cb)]
                                        | _ => []
                                        end) l ++
                     match t_fn t with
                     | TfBackup v cb => [(v, cb)]
                     | _ => []
                     end.
Proof.
  intros H. unfold pendingBackups. rewrite H, flat_map_app. simpl.
  rewrite app_nil_r. reflexivity.
Qed.




























(** ** Items seen through one class *)







(** ** [resetAllTransitioning] only strips the transitioning tag *)








(** ** Well-formedness is kept by everything but a tracker's own closures *)

Lemma Ext_refl w : Ext w w.
Proof.
  intros H. split; [exact H|].
  repeat split; auto; try lia; try tauto.
Qed.

Lemma Ext_trans a b c : Ext a b -> Ext b c -> Ext a c.
Proof.
  intros H1 H2 Ha.
  destruct (H1 Ha) as [Hb [C1 [N1 [I1 [T1 [B1 [L1 [V1 [S1 R1]]]]]]]]].
  destruct (H2 Hb) as [Hc [C2 [N2 [I2 [T2 [B2 [L2 [V2 [S2 R2]]]]]]]]].
  split; [exact Hc|].
  split; [congruence|]. split; [congruence|]. split; [lia|].
  split.
  { intros t Ht. destruct (T2 t Ht) as [Hin|Hge]; [|right; lia].
    destruct (T1 t Hin) as [Hin'|Hge]; [left; exact Hin' | right; exact Hge]. }
  split; [intros t Hb' Ht; apply B2; [exact Hb' | apply B1; assumption]|].
  split; [lia|].
  split; [intros x Hx; rewrite V2 by lia; apply V1; exact Hx|].
  split; [|congruence].
  intros j L HL. rewrite S2 by lia. apply S1; exact HL.
Qed.

Lemma listenersOf_allListeners j L w : In L (listenersOf j w) -> In L (allListeners w).
Proof.
  unfold listenersOf, allListeners.
  destruct (nth_error (items w) j) as [it|] eqn:E; [|contradiction].
  intros H. apply in_concat. exists (listeners it). split; [|exact H].
  apply in_map. eapply nth_error_In; exact E.
Qed.

Lemma allListeners_listenersOf L w :
  In L (allListeners w) -> exists j, In L (listenersOf j w).
Proof.
  unfold listenersOf, allListeners. intros H.
  apply in_concat in H. destruct H as [l [Hl HL]].
  apply in_map_iff in Hl. destruct Hl as [it [<- Hit]].
  apply In_nth_error in Hit. destruct Hit as [j Hj].
  exists j. rewrite Hj. exact HL.
Qed.

Lemma listenersOf_map (w w' : World) :
  map listeners (items w') = map listeners (items w) ->
  forall j, listenersOf j w' = listenersOf j w.
Proof.
  intros H j. unfold listenersOf.
  assert (E : nth_error (map listeners (items w')) j = nth_error (map listeners (items w)) j)
    by (rewrite H; reflexivity).
  rewrite !nth_error_map in E.
  destruct (nth_error (items w') j), (nth_error (items w) j); simpl in E;
    congruence.
Qed.

(** A step that changes no timer or listener, keeps what the
    [backupTimeout] variables hold, and may only forget handles held
    elsewhere. *)
Lemma Ext_quiet (w w' : World) :
  cfg w' = cfg w ->
  timers w' = timers w ->
  nextTimerId w' = nextTimerId w ->
  now w' = now w ->
  (length (backupTimeoutVars w) <= length (backupTimeoutVars w'))%nat ->
  (forall a, nth a (backupTimeoutVars w') Undefined = nth a (backupTimeoutVars w) Undefined) ->
  map listeners (items w') = map listeners (items w) ->
  trace w' = trace w ->
  (forall s id, slotValue w' s = Num id -> slotValue w s = Num id) ->
  Ext w w'.
Proof.
  intros Hc Ht Hn Hk Hlen Hv Hl Hr Hs Hw.
  pose proof (listenersOf_map w w' Hl) as Hall.
  split.
  { destruct Hw as [Wids Wdue Wuniq Wone Wslots Wback Wvars Winj Wlive Wcb Wtr].
    constructor; rewrite ?Ht, ?Hn, ?Hk; auto.
    - intros t a cb H1 H2. rewrite Hv. eauto.
    - intros j L HL. rewrite Hall in HL. specialize (Wvars j L HL). lia.
    - intros j j' L L'. rewrite !Hall. apply Winj.
    - intros j L id HL. rewrite Hall in HL. rewrite Hv. eauto.
    - intros j L t cb HL. rewrite Hall in HL. eauto.
    - intros v Hv'. rewrite Hr in Hv'. specialize (Wtr v Hv'). lia. }
  split; [exact Hc|]. split; [exact Hk|]. split; [lia|].
  split; [intros t; rewrite Ht; auto|].
  split; [intros t _; rewrite Ht; auto|].
  split; [exact Hlen|].
  split; [intros a _; apply Hv|].
  split; [|exact Hr].
  intros j L _. rewrite (listenersOf_map w w' Hl j). tauto.
Qed.

Ltac ext_quiet :=
  apply Ext_quiet; try reflexivity; try (simpl; lia);
  try (intros [] ?; simpl; solve [auto | discriminate]).

Ltac ext_plain := apply respects_modify; intro; ext_quiet.

Lemma ext_classList_add item c : respects Ext (classList_add item c).
Proof.
  destruct item as [j|]; [|apply respects_throw, Ext_refl].
  apply respects_modify; intro; ext_quiet.
  simpl. apply update_nth_map. reflexivity.
Qed.

Lemma ext_classList_remove item c : respects Ext (classList_remove item c).
Proof.
  destruct item as [j|]; [|apply respects_throw, Ext_refl].
  apply respects_modify; intro; ext_quiet.
  simpl. apply update_nth_map. reflexivity.
Qed.

Lemma ext_on_indicator j f : respects Ext (modify (on_indicator j f)).
Proof.
  apply respects_modify; intro w; unfold on_indicator.
  destruct (indicators w); [|apply Ext_refl].
  ext_quiet.
Qed.

Lemma nth_app_default {A} (l : list A) (d : A) (a : nat) :
  nth a (l ++ [d]) d = nth a l d.
Proof.
  destruct (Nat.lt_ge_cases a (length l)) as [H|H].
  - apply app_nth1; exact H.
  - rewrite app_nth2 by exact H. rewrite (nth_overflow l) by exact H.
    destruct (a - length l)%nat as [|[|k]]; reflexivity.
Qed.

Lemma ext_vars :
  respects Ext newSelectedLoopTimeoutVar /\
  (forall v, respects Ext (newIVar v)) /\
  (forall a, respects Ext (preIncrement a)).
Proof.
  split; [|split]; intros; intro w; apply Ext_quiet; try reflexivity;
    try (simpl; lia); intros [] ?; simpl; auto.
  rewrite nth_app_default. auto.
Qed.

(** Cancelling the timer named by a variable other than a [backupTimeout]. *)
Lemma Ext_cancel (w : World) (s : Slot) (id : Z) :
  slotValue w s = Num id -> isBackupSlot s = false ->
  Ext w (set_timers (cancel id (timers w)) w).
Proof.
  intros Hs Hb Hw.
  assert (Hsub : forall t, In t (cancel id (timers w)) -> In t (timers w))
    by (intros t Ht; apply filter_In in Ht; tauto).
  assert (Hkeep : forall t, In t (timers w) -> isBackup (t_fn t) = true ->
                            In t (cancel id (timers w))).
  { intros t Ht Hbk. apply filter_In. split; [exact Ht|].
    destruct (Z.eqb_spec (t_id t) id) as [E|E]; [|reflexivity].
    exfalso. pose proof (proj2 (wf_slots w Hw s id Hs) t Ht E) as F.
    destruct (t_fn t), s; simpl in *; try discriminate; contradiction. }
  split.
  { destruct Hw as [Wids Wdue Wuniq Wone Wslots Wback Wvars Winj Wlive Wcb Wtr].
    constructor; simpl.
    - auto.
    - auto.
    - unfold cancel. clear - Wuniq.
      induction (timers w) as [|x r IH]; simpl; [constructor|].
      inversion Wuniq; subst.
      destruct (negb (t_id x =? id)); simpl; auto.
      constructor; auto. intros Hin. apply H1.
      apply in_map_iff in Hin. destruct Hin as [y [Hy Hin]].
      apply filter_In in Hin. apply in_map_iff. exists y. tauto.
    - auto.
    - intros s' id' Hs'. destruct (Wslots s' id' Hs') as [H1 H2]. split; auto.
    - eauto.
    - exact Wvars.
    - exact Winj.
    - intros j L id' HL Hcell.
      destruct (Wlive j L id' HL Hcell) as [t [Ht Hid]].
      exists t. split; [|exact Hid]. apply Hkeep; [exact Ht|].
      pose proof (proj2 (Wslots (SBackup (l_var L)) id' Hcell) t Ht Hid) as F.
      destruct (t_fn t); simpl in F; try contradiction. reflexivity.
    - eauto.
    - exact Wtr. }
  simpl. repeat split; auto; try lia; try tauto.
Qed.

Lemma ext_clearTransitioningTimeout : respects Ext clearTransitioningTimeout.
Proof.
  intros w. unfold clearTransitioningTimeout, bind, gets, when.
  destruct (transitioningTimeout w) as [| |id] eqn:E; simpl; try apply Ext_refl.
  apply Ext_cancel with (s := SDebounce); [exact E | reflexivity].
Qed.

Lemma ext_clearSelectedLoopTimeout a : respects Ext (clearSelectedLoopTimeout a).
Proof.
  intros w. unfold clearSelectedLoopTimeout, getSelectedLoopTimeoutVar, bind, gets, when.
  destruct (nth a (selectedLoopTimeoutVars w) Undefined) as [| |id] eqn:E; simpl;
    try apply Ext_refl.
  apply Ext_cancel with (s := SLoop a); [exact E | reflexivity].
Qed.

Lemma ext_releaseDebounce : respects Ext releaseDebounce.
Proof.
  intros w. unfold releaseDebounce, bind, gets, when.
  destruct (transitioningTimeout w) as [| |id] eqn:E; simpl; try apply Ext_refl.
  destruct (shouldDebounce (cfg w)); simpl; [|apply Ext_refl].
  eapply Ext_trans with (b := set_transitioning false w).
  - ext_quiet.
  - apply (Ext_cancel (set_transitioning false w) SDebounce id); [exact E | reflexivity].
Qed.

Lemma ext_clearAutoTransitionInterval : respects Ext clearAutoTransitionInterval.
Proof.
  intros w. unfold clearAutoTransitionInterval, bind, gets, when.
  destruct (autoTransitionInterval w) as [| |id] eqn:E; simpl; try apply Ext_refl.
  eapply Ext_trans.
  - apply (Ext_cancel w SInterval id); [exact E | reflexivity].
  - ext_quiet.
Qed.

Lemma ext_clearAutoTransitionTimeout : respects Ext clearAutoTransitionTimeout.
Proof.
  intros w. unfold clearAutoTransitionTimeout, bind, gets, when.
  destruct (autoTransitionTimeout w) as [| |id] eqn:E; simpl; try apply Ext_refl.
  eapply Ext_trans.
  - apply (Ext_cancel w SResume id); [exact E | reflexivity].
  - ext_quiet.
Qed.

Lemma ext_resetAutoTransitionTimeout : respects Ext resetAutoTransitionTimeout.
Proof.
  intros w. unfold resetAutoTransitionTimeout, bind, gets, clearTimeout.
  destruct (autoTransitionTimeout w) as [| |id] eqn:E; simpl;
    try solve [ext_quiet].
  eapply Ext_trans.
  - apply (Ext_cancel w SResume id); [exact E | reflexivity].
  - ext_quiet.
Qed.

(** Arming a timer that is not a backup timer and storing its handle. *)
Lemma Ext_arm (w w' : World) (fn : TimerFn) (due : Z) (p : option Z) (s : Slot) :
  isBackup fn = false -> fits fn s -> now w <= due ->
  timers w' = timers w ++ [mkTimer (nextTimerId w) due p fn] ->
  nextTimerId w' = nextTimerId w + 1 ->
  cfg w' = cfg w -> now w' = now w ->
  backupTimeoutVars w' = backupTimeoutVars w ->
  map listeners (items w') = map listeners (items w) ->
  trace w' = trace w ->
  (forall s' id, slotValue w' s' = Num id ->
                 slotValue w s' = Num id \/ (s' = s /\ id = nextTimerId w)) ->
  Ext w w'.
Proof.
  intros Hfn Hfit Hdue Ht Hn Hc Hk Hv Hl Hr Hs Hw.
  pose proof (listenersOf_map w w' Hl) as Hall.
  split.
  { destruct Hw as [Wids Wdue Wuniq Wone Wslots Wback Wvars Winj Wlive Wcb Wtr].
    constructor; rewrite ?Ht, ?Hn, ?Hk, ?Hv.
    - intros t Hin. apply in_app_or in Hin. destruct Hin as [Hin|[<-|[]]]; simpl.
      + specialize (Wids t Hin). lia.
      + lia.
    - intros t Hin. apply in_app_or in Hin. destruct Hin as [Hin|[<-|[]]]; simpl; auto.
    - rewrite map_app. simpl. apply NoDup_app; [exact Wuniq | repeat constructor; simpl; tauto |].
      intros x Hx [<-|[]]. apply in_map_iff in Hx. destruct Hx as [t [E Hin]].
      specialize (Wids t Hin). lia.
    - intros t Hin Hb. apply in_app_or in Hin. destruct Hin as [Hin|[<-|[]]]; auto.
      simpl in Hb. congruence.
    - intros s' id Hs'. destruct (Hs s' id Hs') as [Hold|[-> ->]].
      + destruct (Wslots s' id Hold) as [H1 H2]. split; [lia|].
        intros t Hin Hid. apply in_app_or in Hin. destruct Hin as [Hin|[<-|[]]]; auto.
        simpl in Hid. lia.
      + split; [lia|]. intros t Hin Hid.
        apply in_app_or in Hin. destruct Hin as [Hin|[<-|[]]]; [|exact Hfit].
        specialize (Wids t Hin). lia.
    - intros t a cb Hin Hf. apply in_app_or in Hin. destruct Hin as [Hin|[<-|[]]]; eauto.
      simpl in Hf. subst fn. discriminate.
    - intros j L HL. rewrite Hall in HL. eauto.
    - intros j j' L L'. rewrite !Hall. apply Winj.
    - intros j L id HL Hcell. rewrite Hall in HL.
      destruct (Wlive j L id HL Hcell) as [t [Hin Hid]].
      exists t. split; [apply in_or_app; left; exact Hin | exact Hid].
    - intros j L t cb HL Hin Hf. rewrite Hall in HL. apply in_app_or in Hin.
      destruct Hin as [Hin|[<-|[]]]; eauto.
      simpl in Hf. subst fn. discriminate.
    - rewrite Hr. exact Wtr. }
  split; [exact Hc|]. split; [exact Hk|]. split; [lia|].
  split.
  { intros t Hin. rewrite Ht in Hin. apply in_app_or in Hin.
    destruct Hin as [Hin|[<-|[]]]; [left; exact Hin | right; simpl; lia]. }
  split; [intros t _ Hin; rewrite Ht; apply in_or_app; left; exact Hin|].
  split; [rewrite Hv; lia|].
  split; [intros a _; rewrite Hv; reflexivity|].
  split; [|exact Hr].
  intros j L _. rewrite (listenersOf_map w w' Hl j). tauto.
Qed.

Lemma ext_armTransitioningTimeout : respects Ext armTransitioningTimeout.
Proof.
  intros w. unfold armTransitioningTimeout, bind, setTimeout, modify. simpl.
  eapply Ext_arm with (fn := TfDebounceRelease) (s := SDebounce)
                      (due := now w + Z.max 0 3000) (p := None);
    try reflexivity; simpl; try lia; auto.
  intros [] id; simpl; intros H; auto. right. split; congruence.
Qed.

Lemma ext_armAutoTransitionInterval : respects Ext armAutoTransitionInterval.
Proof.
  intros w. unfold armAutoTransitionInterval, bind, gets, setInterval, modify. simpl.
  eapply Ext_arm with (fn := TfAutoInterval) (s := SInterval)
                      (due := now w + Z.max 0 (autoTransitionTime (cfg w)))
                      (p := Some (autoTransitionTime (cfg w)));
    try reflexivity; simpl; try lia; auto.
  intros [] id; simpl; intros H; auto. right. split; congruence.
Qed.

Lemma ext_armAutoTransitionTimeout : respects Ext armAutoTransitionTimeout.
Proof.
  intros w. unfold armAutoTransitionTimeout, bind, gets, setTimeout, modify. simpl.
  eapply Ext_arm with (fn := TfAutoResume) (s := SResume)
                      (due := now w + Z.max 0 (autoTransitionDelay (cfg w))) (p := None);
    try reflexivity; simpl; try lia; auto.
  intros [] id; simpl; intros H; auto. right. split; congruence.
Qed.

Lemma ext_armSelectedLoopTimeout a k : respects Ext (armSelectedLoopTimeout a k).
Proof.
  intros w. unfold armSelectedLoopTimeout, bind, setTimeout, setSelectedLoopTimeoutVar, modify.
  simpl.
  eapply Ext_arm with (fn := TfSelectedLoop k) (s := SLoop a)
                      (due := now w + Z.max 0 3000) (p := None);
    try reflexivity; simpl; try lia; auto.
  intros [] id; simpl; intros H; auto.
  rewrite nth_update_nth in H.
  destruct (Nat.eqb_spec a a0) as [->|]; simpl in H; auto.
  destruct (a0 <? length (selectedLoopTimeoutVars w))%nat; auto.
  right. split; congruence.
Qed.

(** *** [markTransitioning] adds one tracker and touches no other *)

Lemma listenersOf_nth j w : listenersOf j w = nth j (map listeners (items w)) [].
Proof.
  unfold listenersOf. generalize (items w). intros l; revert j.
  induction l as [|x r IH]; intros [|j]; simpl; auto.
Qed.

Lemma map_update_nth {A B} (g : A -> B) (f : A -> A) (h : B -> B) (n : nat) (l : list A) :
  (forall x, g (f x) = h (g x)) ->
  map g (update_nth n f l) = update_nth n h (map g l).
Proof.
  intros H; revert n; induction l as [|x r IH]; intros [|n]; simpl; auto.
  - rewrite H; reflexivity.
  - rewrite IH; reflexivity.
Qed.

Lemma update_nth_last {A} (l : list A) (x y : A) :
  update_nth (length l) (fun _ => y) (l ++ [x]) = l ++ [y].
Proof. induction l as [|z r IH]; simpl; [reflexivity | rewrite IH; reflexivity]. Qed.

Lemma nth_update_nth_snoc {A} (j k : nat) (x : A) (ll : list (list A)) (y : A) :
  In y (nth k (update_nth j (fun l => l ++ [x]) ll) []) <->
  In y (nth k ll []) \/ (j = k /\ (k < length ll)%nat /\ y = x).
Proof.
  revert j k; induction ll as [|l r IH]; intros [|j] [|k]; simpl.
  - split; [tauto | intros [H|[_ [H _]]]; [exact H | lia]].
  - split; [tauto | intros [H|[H _]]; [exact H | lia]].
  - split; [tauto | intros [H|[H _]]; [exact H | lia]].
  - split; [tauto | intros [H|[_ [H _]]]; [exact H | lia]].
  - rewrite in_app_iff. simpl. split.
    + intros [H|[H|[]]]; [left; exact H | right; repeat split; auto; lia].
    + intros [H|[_ [_ H]]]; [left; exact H | right; left; symmetry; exact H].
  - split; [tauto | intros [H|[H _]]; [exact H | lia]].
  - split; [tauto | intros [H|[H _]]; [exact H | lia]].
  - rewrite IH. split.
    + intros [H|[H1 [H2 H3]]]; [left; exact H | right; repeat split; auto; lia].
    + intros [H|[H1 [H2 H3]]]; [left; exact H | right; repeat split; auto; lia].
Qed.

Lemma Ext_mark (w w' : World) (j : nat) (L : Listener) :
  l_var L = length (backupTimeoutVars w) ->
  timers w' = timers w ++
    [mkTimer (nextTimerId w) (now w + 3000) None (TfBackup (l_var L) (l_callback L))] ->
  nextTimerId w' = nextTimerId w + 1 ->
  cfg w' = cfg w -> now w' = now w -> trace w' = trace w ->
  backupTimeoutVars w' = backupTimeoutVars w ++ [Num (nextTimerId w)] ->
  (forall s, isBackupSlot s = false -> slotValue w' s = slotValue w s) ->
  map listeners (items w') =
    update_nth j (fun l => l ++ [L]) (map listeners (items w)) ->
  Ext w w'.
Proof.
  intros Ha Ht Hn Hc Hk Hr Hv Hs Hl Hw.
  set (a := length (backupTimeoutVars w)) in *.
  set (id := nextTimerId w) in *.
  destruct Hw as [Wids Wdue Wuniq Wone Wslots Wback Wvars Winj Wlive Wcb Wtr].
  assert (Hold : forall b, (b < a)%nat ->
            nth b (backupTimeoutVars w') Undefined = nth b (backupTimeoutVars w) Undefined)
    by (intros b Hb; rewrite Hv; apply app_nth1; exact Hb).
  assert (Hnew : nth a (backupTimeoutVars w') Undefined = Num id)
    by (rewrite Hv, app_nth2 by (unfold a; lia);
        replace (a - length (backupTimeoutVars w))%nat with 0%nat by (unfold a; lia);
        reflexivity).
  assert (Hcell : forall b x, nth b (backupTimeoutVars w') Undefined = Num x ->
            (b < a)%nat /\ nth b (backupTimeoutVars w) Undefined = Num x \/
            b = a /\ x = id).
  { intros b x Hb. destruct (Nat.lt_trichotomy b a) as [Hlt|[->|Hgt]].
    - left. split; [exact Hlt|]. rewrite <- Hold by exact Hlt. exact Hb.
    - right. split; [reflexivity|]. congruence.
    - rewrite nth_overflow in Hb; [discriminate|]. rewrite Hv, length_app. simpl.
      fold a. lia. }
  assert (Hall : forall j' L', In L' (listenersOf j' w') ->
            In L' (listenersOf j' w) \/ (j' = j /\ L' = L)).
  { intros j' L'. rewrite !listenersOf_nth, Hl, nth_update_nth_snoc.
    intros [H|[H1 [_ H2]]]; auto. }
  assert (Hfresh : forall j' L', In L' (listenersOf j' w) -> l_var L' <> a).
  { intros j' L' HL' E. specialize (Wvars j' L' HL'). fold a in Wvars. lia. }
  assert (Hin : forall t, In t (timers w') ->
            In t (timers w) \/
            t = mkTimer id (now w + 3000) None (TfBackup (l_var L) (l_callback L))).
  { intros t Hin. rewrite Ht in Hin. apply in_app_or in Hin.
    destruct Hin as [Hin|[<-|[]]]; auto. }
  split.
  { constructor.
    - intros t Hi. destruct (Hin t Hi) as [Ho| ->]; simpl; [specialize (Wids t Ho)|]; lia.
    - intros t Hi. destruct (Hin t Hi) as [Ho| ->]; simpl; [rewrite Hk; auto | lia].
    - rewrite Ht, map_app. simpl.
      apply NoDup_app; [exact Wuniq | repeat constructor; simpl; tauto |].
      intros x Hx [<-|[]]. apply in_map_iff in Hx. destruct Hx as [t [E Hi]].
      specialize (Wids t Hi). fold id in Wids. lia.
    - intros t Hi Hb. destruct (Hin t Hi) as [Ho| ->]; auto.
    - intros s x Hx. destruct s; try (rewrite Hs in Hx by reflexivity;
        destruct (Wslots _ x Hx) as [H1 H2]; split; [lia|];
        intros t Hi Hid; destruct (Hin t Hi) as [Ho| ->]; auto;
        simpl in Hid; fold id in H1; lia).
      simpl in Hx. destruct (Hcell _ _ Hx) as [[Hlt Hx']|[-> ->]].
      + destruct (Wslots (SBackup a0) x Hx') as [H1 H2]. split; [lia|].
        intros t Hi Hid. destruct (Hin t Hi) as [Ho| ->]; auto.
        simpl in Hid. fold id in H1. lia.
      + split; [lia|]. intros t Hi Hid. destruct (Hin t Hi) as [Ho| ->].
        * specialize (Wids t Ho). fold id in Wids. lia.
        * simpl. exact Ha.
    - intros t b cb Hi Hf. destruct (Hin t Hi) as [Ho| ->].
      + pose proof (Wback t b cb Ho Hf) as Hb.
        rewrite Hold; [exact Hb|].
        destruct (Nat.lt_ge_cases b a) as [Hlt|Hge]; [exact Hlt|].
        rewrite nth_overflow in Hb by (fold a; lia). discriminate.
      + simpl in Hf. injection Hf as <- _. simpl. rewrite Ha. exact Hnew.
    - intros j' L' HL'. rewrite Hv, length_app. simpl. fold a.
      destruct (Hall j' L' HL') as [Ho|[_ ->]];
        [specialize (Wvars j' L' Ho); fold a in Wvars|]; lia.
    - intros j1 j2 L1 L2 H1 H2 E.
      destruct (Hall j1 L1 H1) as [O1|[-> ->]]; destruct (Hall j2 L2 H2) as [O2|[-> ->]].
      + eapply Winj; eauto.
      + exfalso. apply (Hfresh j1 L1 O1). congruence.
      + exfalso. apply (Hfresh j2 L2 O2). congruence.
      + reflexivity.
    - intros j' L' x HL' Hx. destruct (Hall j' L' HL') as [Ho|[_ ->]].
      + rewrite Hold in Hx by (specialize (Wvars j' L' Ho); exact Wvars).
        destruct (Wlive j' L' x Ho Hx) as [t [Hi Hid]].
        exists t. split; [rewrite Ht; apply in_or_app; left; exact Hi | exact Hid].
      + rewrite Ha, Hnew in Hx. injection Hx as <-.
        eexists. split; [rewrite Ht; apply in_or_app; right; left; reflexivity|].
        reflexivity.
    - intros j' L' t cb HL' Hi Hf. destruct (Hall j' L' HL') as [Ho|[_ ->]];
        destruct (Hin t Hi) as [Hto| ->].
      + eauto.
      + simpl in Hf. injection Hf as E _. exfalso. apply (Hfresh j' L' Ho). congruence.
      + exfalso. pose proof (Wback t _ _ Hto Hf) as Hb.
        rewrite Ha, nth_overflow in Hb by (fold a; lia). discriminate.
      + simpl in Hf. congruence.
    - intros v Hv'. rewrite Hr in Hv'. specialize (Wtr v Hv').
      rewrite Hv, length_app. simpl. lia. }
  split; [exact Hc|]. split; [exact Hk|]. split; [lia|].
  split.
  { intros t Hi. destruct (Hin t Hi) as [Ho| ->]; [left; exact Ho | right; simpl; lia]. }
  split; [intros t _ Hi; rewrite Ht; apply in_or_app; left; exact Hi|].
  split; [rewrite Hv, length_app; simpl; lia|].
  split; [intros b Hb; apply Hold; exact Hb|].
  split; [|exact Hr].
  intros j' L' HL'. rewrite !listenersOf_nth, Hl, nth_update_nth_snoc.
  split; [|tauto]. intros [H|[_ [_ ->]]]; [exact H|]. fold a in HL'. lia.
Qed.

Lemma ext_markTransitioning item e cb : respects Ext (markTransitioning item e cb).
Proof.
  intros w. unfold markTransitioning. rewrite bind_gets.
  destruct (transitioningClass (cfg w)) as [c|]; [|apply Ext_refl].
  destruct item as [j|].
  - unfold bind, newBackupTimeoutVar, addEventListener, setTimeout, setBackupTimeoutVar,
      classList_add, modify. simpl.
    apply Ext_mark with (j := j) (L := mkListener (length (backupTimeoutVars w)) e cb);
      try reflexivity.
    + simpl. apply update_nth_last.
    + intros [] H; try discriminate; reflexivity.
    + simpl. rewrite update_nth_map by reflexivity.
      apply map_update_nth. reflexivity.
  - unfold bind, newBackupTimeoutVar, addEventListener, throw. simpl.
    apply Ext_quiet; try reflexivity.
    + simpl. rewrite length_app. simpl. lia.
    + intros a. simpl. apply nth_app_default.
    + intros [] ?; simpl; auto. rewrite nth_app_default. auto.
Qed.

(** *** The methods *)

Ltac ext_leaf :=
  first
    [ apply ext_classList_add
    | apply ext_classList_remove
    | apply ext_on_indicator
    | apply ext_clearTransitioningTimeout
    | apply ext_armTransitioningTimeout
    | apply ext_clearAutoTransitionInterval
    | apply ext_clearAutoTransitionTimeout
    | apply ext_armAutoTransitionInterval
    | apply ext_armAutoTransitionTimeout
    | apply ext_resetAutoTransitionTimeout
    | apply ext_clearSelectedLoopTimeout
    | apply ext_armSelectedLoopTimeout
    | apply ext_releaseDebounce
    | apply ext_markTransitioning
    | apply (proj1 ext_vars)
    | apply (proj1 (proj2 ext_vars))
    | apply (proj2 (proj2 ext_vars))
    | ext_plain ].

Ltac ext := respects_with Ext_refl Ext_trans ext_leaf.

Lemma ext_debounce : respects Ext debounce.
Proof. unfold debounce. ext. Qed.

Lemma ext_endDebounce : respects Ext endDebounce.
Proof. unfold endDebounce. ext. Qed.

Lemma ext_resetAllTransitioning : respects Ext resetAllTransitioning.
Proof. unfold resetAllTransitioning. ext. Qed.

Lemma ext_startAutoTransition : respects Ext startAutoTransition.
Proof. unfold startAutoTransition. ext. Qed.

Lemma ext_stopAutoTransition : respects Ext stopAutoTransition.
Proof. unfold stopAutoTransition. ext. Qed.

Lemma ext_updateIndicators k : respects Ext (updateIndicators k).
Proof. unfold updateIndicators. ext. Qed.

Lemma ext_reclauclatePositions k b : respects Ext (reclauclatePositions k b).
Proof. unfold reclauclatePositions. ext. Qed.

Lemma ext_callFinal f : respects Ext (callFinal f).
Proof. unfold callFinal. ext. Qed.

Lemma ext_transitionToPrevLoop s d i f : respects Ext (transitionToPrevLoop s d i f).
Proof.
  unfold transitionToPrevLoop.
  respects_with Ext_refl Ext_trans ltac:(first [apply ext_callFinal | ext_leaf]).
Qed.

Lemma ext_transitionToNextLoop s d i f : respects Ext (transitionToNextLoop s d i f).
Proof.
  unfold transitionToNextLoop.
  respects_with Ext_refl Ext_trans ltac:(first [apply ext_callFinal | ext_leaf]).
Qed.

Ltac ext_method :=
  first
    [ apply ext_debounce
    | apply ext_endDebounce
    | apply ext_resetAllTransitioning
    | apply ext_startAutoTransition
    | apply ext_stopAutoTransition
    | apply ext_updateIndicators
    | apply ext_reclauclatePositions
    | apply ext_callFinal
    | apply ext_transitionToPrevLoop
    | apply ext_transitionToNextLoop
    | ext_leaf ].

Ltac ext_methods := respects_with Ext_refl Ext_trans ext_method.


Lemma ext_transitionForward auto : respects Ext (transitionForward auto).
Proof. unfold transitionForward, getSelectedIndex, items_length. ext_methods. Qed.

Lemma ext_transitionBackward auto : respects Ext (transitionBackward auto).
Proof. unfold transitionBackward, getSelectedIndex, items_length. ext_methods. Qed.


Lemma ext_autoTransition : respects Ext autoTransition.
Proof.
  unfold autoTransition, isAtEnd, isAtFront, getSelectedIndex, items_length.
  respects_with Ext_refl Ext_trans
    ltac:(first [ apply ext_transitionForward | apply ext_transitionBackward | ext_leaf ]).
Qed.

Lemma ext_timerBody fn : isBackup fn = false -> respects Ext (timerBody fn).
Proof.
  intros H. destruct fn; simpl; try discriminate.
  - ext.
  - apply ext_reclauclatePositions.
  - apply ext_autoTransition.
  - ext_methods.
Qed.

(** ** The two closures of a tracker: what the listener and the backup timer
    do before they hand over to the continuation *)

Lemma onTransitionEnd_eq (j : nat) (L : Listener) (w : World) :
  onTransitionEnd j L w =
  match nth (l_var L) (backupTimeoutVars w) Undefined with
  | Num id =>
      (when (l_endDebounce L) releaseDebounce ;; invoke (l_var L) (l_callback L))
        (set_timers (cancel id (timers w)) (detached j (l_var L) w))
  | _ => Ok tt (detached j (l_var L) w)
  end.
Proof.
  unfold onTransitionEnd, removeClass, removeEventListener, clearBackupTimeout,
    getBackupTimeoutVar, classList_remove, bind, gets, modify, detached. simpl.
  destruct (nth (l_var L) (backupTimeoutVars w) Undefined) eqn:E; simpl;
    rewrite ?E; reflexivity.
Qed.

Lemma nth_update_nth_filter {A} (p : A -> bool) (j k : nat) (ll : list (list A)) (y : A) :
  In y (nth k (update_nth j (filter p) ll) []) <->
  In y (nth k ll []) /\ (j = k -> p y = true).
Proof.
  revert j k; induction ll as [|l r IH]; intros [|j] [|k]; simpl;
    try (split; [tauto | intros [[] _]]).
  - rewrite filter_In. split; [intros [H1 H2]; auto | intros [H1 H2]; auto].
  - split; [intros H; split; [exact H | intros E; discriminate] | tauto].
  - split; [intros H; split; [exact H | intros E; discriminate] | tauto].
  - rewrite IH. split; intros [H1 H2]; (split; [exact H1|]); intros E; apply H2; congruence.
Qed.

Lemma listenersOf_detached (j a j' : nat) (L' : Listener) (w : World) :
  In L' (listenersOf j' (detached j a w)) <->
  In L' (listenersOf j' w) /\ (j = j' -> l_var L' <> a).
Proof.
  rewrite !listenersOf_nth. unfold detached. simpl.
  rewrite (map_update_nth listeners _
             (filter (fun l => negb (Nat.eqb (l_var l) a)))) by reflexivity.
  rewrite update_nth_map by reflexivity.
  rewrite nth_update_nth_filter.
  split; intros [H1 H2]; (split; [exact H1|]); intros E; specialize (H2 E).
  - intros E'. rewrite E', Nat.eqb_refl in H2. discriminate.
  - destruct (Nat.eqb_spec (l_var L') a); [contradiction | reflexivity].
Qed.

Lemma detached_no_var (j : nat) (L : Listener) (w : World) :
  WF w -> In L (listenersOf j w) ->
  forall j' L', In L' (listenersOf j' (detached j (l_var L) w)) -> l_var L' <> l_var L.
Proof.
  intros Hw HL j' L' H. apply listenersOf_detached in H. destruct H as [H1 H2].
  intros E. apply H2; [|exact E].
  symmetry. eapply (wf_inj w Hw); [exact H1 | exact HL | exact E].
Qed.

Lemma WF_detached (j a : nat) (w : World) : WF w -> WF (detached j a w).
Proof.
  intros [Wids Wdue Wuniq Wone Wslots Wback Wvars Winj Wlive Wcb Wtr].
  assert (Hsub : forall j' L', In L' (listenersOf j' (detached j a w)) ->
                               In L' (listenersOf j' w))
    by (intros j' L' H; apply listenersOf_detached in H; tauto).
  constructor; auto.
  - intros j' L' H. apply (Wvars j' L'). auto.
  - intros j1 j2 L1 L2 H1 H2. apply Winj; auto.
  - intros j' L' id H. apply (Wlive j' L' id). auto.
  - intros j' L' t cb H. apply (Wcb j' L' t cb). auto.
Qed.

(** The listener cancels the timer its own variable names. *)
Lemma WF_cleared (a : nat) (id : Z) (w : World) :
  WF w -> nth a (backupTimeoutVars w) Undefined = Num id ->
  (forall j L, In L (listenersOf j w) -> l_var L <> a) ->
  WF (set_timers (cancel id (timers w)) w).
Proof.
  intros [Wids Wdue Wuniq Wone Wslots Wback Wvars Winj Wlive Wcb Wtr] Ha Hno.
  assert (Hsub : forall t, In t (cancel id (timers w)) -> In t (timers w))
    by (intros t Ht; apply filter_In in Ht; tauto).
  constructor; simpl; auto.
  - unfold cancel. clear - Wuniq.
    induction (timers w) as [|x r IH]; simpl; [constructor|].
    inversion Wuniq; subst.
    destruct (negb (t_id x =? id)); simpl; auto.
    constructor; auto. intros Hin. apply H1.
    apply in_map_iff in Hin. destruct Hin as [y [Hy Hin]].
    apply filter_In in Hin. apply in_map_iff. exists y. tauto.
  - intros s id' Hs. destruct (Wslots s id' Hs) as [H1 H2]. split; auto.
  - eauto.
  - intros j L x HL Hx. destruct (Wlive j L x HL Hx) as [t [Ht Hid]].
    exists t. split; [|exact Hid]. apply filter_In. split; [exact Ht|].
    destruct (Z.eqb_spec (t_id t) id) as [E|E]; [|reflexivity].
    exfalso. apply (Hno j L HL).
    pose proof (proj2 (Wslots (SBackup (l_var L)) x Hx) t Ht Hid) as F1.
    pose proof (proj2 (Wslots (SBackup a) id Ha) t Ht E) as F2.
    destruct (t_fn t); simpl in F1, F2; try contradiction. congruence.
  - eauto.
Qed.

Lemma WF_observe (v : nat) (w : World) :
  WF w -> (v < length (backupTimeoutVars w))%nat ->
  WF (set_trace (Invoked v :: trace w) w).
Proof.
  intros [Wids Wdue Wuniq Wone Wslots Wback Wvars Winj Wlive Wcb Wtr] Hv.
  constructor; auto.
  simpl. intros v' [E|H]; [injection E as <-; exact Hv | auto].
Qed.

Lemma NoDup_cancel (id : Z) (l : list Timer) :
  NoDup (map t_id l) -> NoDup (map t_id (cancel id l)).
Proof.
  unfold cancel. induction l as [|x r IH]; simpl; intros H; [constructor|].
  inversion H; subst.
  destruct (negb (t_id x =? id)); simpl; auto.
  constructor; auto. intros Hin. apply H2.
  apply in_map_iff in Hin. destruct Hin as [y [Hy Hin]].
  apply filter_In in Hin. apply in_map_iff. exists y. tauto.
Qed.

Lemma In_cancel (id : Z) (t : Timer) (l : list Timer) :
  In t (cancel id l) <-> In t l /\ t_id t <> id.
Proof.
  unfold cancel. rewrite filter_In.
  destruct (Z.eqb_spec (t_id t) id); simpl; split; intros [H1 H2]; split; auto;
    try discriminate; contradiction.
Qed.

Lemma same_id_same_timer (w : World) (t t' : Timer) :
  WF w -> In t (timers w) -> In t' (timers w) -> t_id t = t_id t' -> t = t'.
Proof.
  intros Hw. pose proof (wf_unique w Hw) as H. revert H.
  induction (timers w) as [|x r IH]; simpl; intros Hn H1 H2 E; [contradiction|].
  inversion Hn; subst.
  destruct H1 as [<-|H1], H2 as [<-|H2]; auto.
  - exfalso. apply H3. rewrite E. apply in_map. exact H2.
  - exfalso. apply H3. rewrite <- E. apply in_map. exact H1.
Qed.

(** The backup timer [t] of tracker [a] runs at [clock]: it leaves the
    table and resets its variable. *)
Lemma WF_backup_fired (t : Timer) (a : nat) (cb : Callback) (clock : Z) (w : World) :
  WF w -> In t (timers w) -> t_fn t = TfBackup a cb ->
  (forall t', In t' (timers w) -> t_id t' <> t_id t -> clock <= t_due t') ->
  WF (set_backupTimeoutVars (update_nth a (fun _ => Null) (backupTimeoutVars w))
        (set_now clock (set_timers (cancel (t_id t) (timers w)) w))).
Proof.
  intros Hw Ht Hf Hclock.
  pose proof (wf_backups w Hw t a cb Ht Hf) as Hcell.
  destruct Hw as [Wids Wdue Wuniq Wone Wslots Wback Wvars Winj Wlive Wcb Wtr].
  assert (Hnth : forall b, b <> a ->
            nth b (update_nth a (fun _ => Null) (backupTimeoutVars w)) Undefined =
            nth b (backupTimeoutVars w) Undefined).
  { intros b Hb. rewrite nth_update_nth.
    destruct (Nat.eqb_spec a b); [congruence | reflexivity]. }
  assert (Hnum : forall b x,
            nth b (update_nth a (fun _ => Null) (backupTimeoutVars w)) Undefined = Num x ->
            b <> a /\ nth b (backupTimeoutVars w) Undefined = Num x).
  { intros b x Hb. rewrite nth_update_nth in Hb.
    destruct (Nat.eqb_spec a b) as [->|Hne]; simpl in Hb.
    - destruct (b <? length (backupTimeoutVars w))%nat eqn:Hlt; [discriminate|].
      apply Nat.ltb_ge in Hlt. rewrite nth_overflow in Hb by exact Hlt. discriminate.
    - split; [congruence | exact Hb]. }
  constructor; simpl.
  - intros t' H. apply In_cancel in H. apply Wids; tauto.
  - intros t' H. apply In_cancel in H. apply Hclock; tauto.
  - apply NoDup_cancel; exact Wuniq.
  - intros t' H. apply In_cancel in H. apply Wone; tauto.
  - intros s x Hs.
    assert (Hs' : slotValue w s = Num x).
    { destruct s; simpl in *; auto. apply Hnum in Hs. tauto. }
    destruct (Wslots s x Hs') as [H1 H2]. split; [exact H1|].
    intros t' H. apply In_cancel in H. apply H2; tauto.
  - intros t' b cb' H Hf'. apply In_cancel in H. destruct H as [H Hne].
    pose proof (Wback t' b cb' H Hf') as Hb.
    rewrite Hnth; [exact Hb|]. intros ->. rewrite Hcell in Hb. congruence.
  - intros j L H. rewrite update_nth_length. eauto.
  - exact Winj.
  - intros j L x HL Hx. apply Hnum in Hx. destruct Hx as [Hne Hx].
    destruct (Wlive j L x HL Hx) as [t' [Ht' Hid]].
    exists t'. split; [|exact Hid]. apply In_cancel. split; [exact Ht'|].
    intros E. apply Hne.
    pose proof (proj2 (Wslots (SBackup (l_var L)) x Hx) t' Ht' Hid) as F1.
    pose proof (proj2 (Wslots (SBackup a) (t_id t) Hcell) t' Ht' E) as F2.
    destruct (t_fn t'); simpl in F1, F2; try contradiction. congruence.
  - intros j L t' cb' HL H. apply In_cancel in H. apply (Wcb j L t' cb'); tauto.
  - intros v Hv. rewrite update_nth_length. auto.
Qed.

(** A timer that is not a backup timer leaves the table, or is scheduled
    again, and the clock moves to [clock]. *)
Lemma WF_other_fired (t : Timer) (clock : Z) (w : World) :
  WF w -> In t (timers w) -> isBackup (t_fn t) = false ->
  now w <= clock ->
  (forall t', In t' (timers w) -> t_id t' <> t_id t -> clock <= t_due t') ->
  WF (set_now clock (set_timers (afterFiring t clock (timers w)) w)).
Proof.
  intros Hw Ht Hf Hnow Hclock.
  pose proof (wf_ids w Hw t Ht) as Hid.
  destruct Hw as [Wids Wdue Wuniq Wone Wslots Wback Wvars Winj Wlive Wcb Wtr].
  assert (Hin : forall t', In t' (afterFiring t clock (timers w)) ->
            (In t' (timers w) /\ t_id t' <> t_id t) \/
            (exists p, t_period t = Some p /\
                       t' = mkTimer (t_id t) (clock + Z.max 0 p) (Some p) (t_fn t))).
  { intros t' H. unfold afterFiring in H. destruct (t_period t) as [p|].
    - apply in_app_or in H. destruct H as [H|[<-|[]]].
      + left. apply In_cancel; exact H.
      + right. exists p. auto.
    - left. apply In_cancel; exact H. }
  assert (Hkeep : forall t', In t' (timers w) -> t_id t' <> t_id t ->
            In t' (afterFiring t clock (timers w))).
  { intros t' H Hne. unfold afterFiring.
    destruct (t_period t); [apply in_or_app; left|]; apply In_cancel; auto. }
  constructor; simpl.
  - intros t' H. destruct (Hin t' H) as [[H1 _]|[p [_ ->]]]; simpl; auto.
  - intros t' H. destruct (Hin t' H) as [[H1 H2]|[p [_ ->]]]; simpl; auto. lia.
  - unfold afterFiring. destruct (t_period t) as [p|]; [|apply NoDup_cancel; exact Wuniq].
    rewrite map_app. simpl.
    apply NoDup_app; [apply NoDup_cancel; exact Wuniq | repeat constructor; simpl; tauto|].
    intros x Hx [<-|[]]. apply in_map_iff in Hx. destruct Hx as [t' [E H]].
    apply In_cancel in H. tauto.
  - intros t' H Hb. destruct (Hin t' H) as [[H1 _]|[p [_ ->]]]; auto.
    simpl in Hb. congruence.
  - intros s x Hs. destruct (Wslots s x Hs) as [H1 H2]. split; [exact H1|].
    intros t' H Hx. destruct (Hin t' H) as [[H3 _]|[p [_ ->]]]; auto.
    simpl in *. apply (H2 t Ht Hx).
  - intros t' b cb H Hf'. destruct (Hin t' H) as [[H1 _]|[p [_ ->]]]; eauto.
    simpl in Hf'. rewrite Hf' in Hf. discriminate.
  - exact Wvars.
  - exact Winj.
  - intros j L x HL Hx. destruct (Wlive j L x HL Hx) as [t' [Ht' Hx']].
    exists t'. split; [|exact Hx']. apply Hkeep; [exact Ht'|].
    intros E.
    pose proof (proj2 (Wslots (SBackup (l_var L)) x Hx) t' Ht' Hx') as F.
    assert (t' = t) by (eapply same_id_same_timer with (w := w); eauto;
                        constructor; assumption).
    subst t'. destruct (t_fn t); simpl in F, Hf; try contradiction. discriminate.
  - intros j L t' cb HL H Hf'. destruct (Hin t' H) as [[H1 _]|[p [_ ->]]]; eauto.
  - exact Wtr.
Qed.

Lemma lookupTimer_In (id : Z) (t : Timer) (w : World) :
  lookupTimer id w = Some t -> In t (timers w) /\ t_id t = id.
Proof.
  unfold lookupTimer. intros H. apply find_some in H. destruct H as [H1 H2].
  split; [exact H1 | apply Z.eqb_eq; exact H2].
Qed.

(** ** One step of the page keeps an invariant that the operations, the
    listeners and the timers keep *)

Lemma fire_eq (id : Z) (w w' : World) :
  fire id w = Some w' ->
  exists t, In t (timers w) /\ t_id t = id /\
    (forall t', In t' (timers w) -> t_due t <= t_due t') /\
    w' = outcome (timerBody (t_fn t)
           (set_now (Z.max (now w) (t_due t))
              (set_timers (afterFiring t (Z.max (now w) (t_due t)) (timers w)) w))).
Proof.
  unfold fire. destruct (lookupTimer id w) as [t|] eqn:E; [|discriminate].
  destruct (forallb _ _) eqn:F; [|discriminate].
  intros [= <-]. destruct (lookupTimer_In id t w E) as [H1 H2].
  exists t. split; [exact H1|]. split; [exact H2|]. split.
  - intros t' Ht'. rewrite forallb_forall in F. apply Z.leb_le. apply F; exact Ht'.
  - unfold afterFiring. rewrite H2. reflexivity.
Qed.

Lemma dispatch_invariant (I : World -> Prop) (j : nat) :
  (forall L w, I w -> In L (listenersOf j w) -> I (outcome (onTransitionEnd j L w))) ->
  forall vars w, I w -> I (dispatch j vars w).
Proof.
  intros H vars. induction vars as [|v r IH]; simpl; intros w Hw; [exact Hw|].
  apply IH. unfold registered.
  destruct (find _ (listenersOf j w)) as [L|] eqn:E; [|exact Hw].
  apply H; [exact Hw|]. apply find_some in E. tauto.
Qed.

Lemma step_invariant (I : World -> Prop) (ok : Event -> Prop) :
  (forall auto w, I w -> I (outcome (transitionForward auto w))) ->
  (forall auto w, I w -> I (outcome (transitionBackward auto w))) ->
  (forall k w, ok (CallTo k) -> I w -> I (outcome (transitionTo k w))) ->
  (forall j L w, I w -> In L (listenersOf j w) -> I (outcome (onTransitionEnd j L w))) ->
  (forall t w, I w -> In t (timers w) ->
     (forall t', In t' (timers w) -> t_due t <= t_due t') ->
     I (outcome (timerBody (t_fn t)
          (set_now (Z.max (now w) (t_due t))
             (set_timers (afterFiring t (Z.max (now w) (t_due t)) (timers w)) w))))) ->
  (forall t w, I w -> now w <= t ->
     (forall t', In t' (timers w) -> t <= t_due t') -> I (set_now t w)) ->
  forall e w w', ok e -> step e w = Some w' -> I w -> I w'.
Proof.
  intros Hf Hb Ht Hl Hfire Hwait e w w' Hok Hs Hw.
  destruct e; simpl in Hs.
  - injection Hs as <-. apply Hf; exact Hw.
  - injection Hs as <-. apply Hb; exact Hw.
  - injection Hs as <-. apply Ht; assumption.
  - destruct (j <? length (items w))%nat; [|discriminate]. injection Hs as <-.
    apply dispatch_invariant; [intros; apply Hl; assumption | exact Hw].
  - apply fire_eq in Hs. destruct Hs as [t [H1 [H2 [H3 ->]]]].
    apply Hfire; assumption.
  - destruct (now w <=? t) eqn:E1; [|discriminate].
    destruct (forallb _ _) eqn:E2; [|discriminate].
    injection Hs as <-. apply Hwait; [exact Hw | apply Z.leb_le; exact E1 |].
    intros t' Ht'. rewrite forallb_forall in E2. apply Z.leb_le. apply E2; exact Ht'.
Qed.

Lemma run_invariant (I : World -> Prop) (ok : Event -> Prop) :
  (forall e w w', ok e -> step e w = Some w' -> I w -> I w') ->
  forall es w w', Forall ok es -> run es w = Some w' -> I w -> I w'.
Proof.
  intros H es. induction es as [|e r IH]; simpl; intros w w' Hok Hr Hw.
  - injection Hr as <-. exact Hw.
  - destruct (step e w) as [w1|] eqn:E; [|discriminate].
    inversion Hok; subst. eapply IH; eauto.
Qed.

(** ** A tracker calls its continuation once *)

Lemma outcome_bind_cases {A B} (m : M A) (f : A -> M B) (w : World) (Q : World -> Prop) :
  (forall a, Q (outcome (f a (outcome (m w))))) ->
  (threw (m w) = true -> Q (outcome (m w))) ->
  Q (outcome (bind m f w)).
Proof.
  intros H1 H2. rewrite outcome_bind. destruct (m w) as [a w'|w']; simpl in *.
  - apply H1.
  - apply H2. reflexivity.
Qed.

Lemma invoke_eq (v : nat) (cb : Callback) (w : World) :
  invoke v cb w =
  match cb with
  | CbNull => Ok tt w
  | _ => call cb (set_trace (Invoked v :: trace w) w)
  end.
Proof. destruct cb; reflexivity. Qed.











Lemma WF_wait (t : Z) (w : World) :
  WF w -> (forall t', In t' (timers w) -> t <= t_due t') -> WF (set_now t w).
Proof.
  intros [Wids Wdue Wuniq Wone Wslots Wback Wvars Winj Wlive Wcb Wtr] H.
  constructor; auto.
Qed.





Lemma WF_newWorld (c : Config) (its : list Item) (inds : option (list Indicator)) :
  concat (map listeners its) = [] -> WF (newWorld c its inds).
Proof.
  intros H.
  assert (Hl : forall j L, ~ In L (listenersOf j (newWorld c its inds))).
  { intros j L HL. apply listenersOf_allListeners in HL.
    unfold allListeners in HL. simpl in HL. rewrite H in HL. exact HL. }
  constructor; simpl.
  - intros t [].
  - intros t [].
  - constructor.
  - intros t [].
  - intros [| | |x|x] h; simpl; try discriminate; destruct x; discriminate.
  - intros t a cb [].
  - intros j L HL. destruct (Hl j L HL).
  - intros j j' L L' HL. destruct (Hl j L HL).
  - intros j L id HL. destruct (Hl j L HL).
  - intros j L t cb HL. destruct (Hl j L HL).
  - intros v [].
Qed.

Lemma ext_logError (msg : string) :
  respects Ext (modify (fun w => set_console (console w ++ [msg]) w)).
Proof. ext_plain. Qed.

Lemma ext_initiateIndicators : respects Ext initiateIndicators.
Proof.
  unfold initiateIndicators.
  apply (respects_bind _ Ext_trans); [apply (respects_indicators_length _ Ext_refl)|].
  intros n. apply (respects_forEach _ Ext_refl Ext_trans). intros i.
  apply respects_modify. intro w. cbv beta.
  destruct (indicators w); [ext_quiet | apply Ext_refl].
Qed.

Lemma ext_constructor : respects Ext constructor.
Proof.
  unfold constructor.
  apply (respects_bind _ Ext_trans); [apply (respects_gets _ Ext_refl)|].
  intros inds. apply (respects_bind _ Ext_trans).
  - destruct inds as [l|]; [|apply (respects_ret _ Ext_refl)].
    apply (respects_bind _ Ext_trans); [apply (respects_gets _ Ext_refl)|].
    intros n. destruct (negb _); [apply ext_logError | apply ext_initiateIndicators].
  - intros _.
    apply (respects_bind _ Ext_trans); [ext_plain | intros _].
    apply (respects_bind _ Ext_trans); [ext_plain | intros _].
    apply (respects_bind _ Ext_trans); [ext_plain | intros _].
    apply ext_startAutoTransition.
Qed.

Lemma WF_new_Slideshow (c : Config) (its : list Item) (inds : option (list Indicator)) :
  concat (map listeners its) = [] -> WF (outcome (new_Slideshow c its inds)).
Proof.
  intros H. apply (ext_constructor (newWorld c its inds)).
  apply WF_newWorld. exact H.
Qed.



(** ** Code that leaves the selection alone *)












































(** ** Exactly one item is selected unless a chain is under way *)




Lemma find_selected_spec (c : string) (l : list Item) (z : Z) :
  (find_selected c l z = -1 /\ ones (map (hasClass c) l) = 0%nat) \/
  (z <= find_selected c l z < z + Z.of_nat (length l) /\
   nth (Z.to_nat (find_selected c l z - z)) (map (hasClass c) l) false = true).
Proof.
  revert z; induction l as [|x r IH]; intros z; simpl.
  - left. split; reflexivity.
  - change (contains c (classList x)) with (hasClass c x).
    destruct (hasClass c x) eqn:E.
    + right. split; [lia|]. rewrite Z.sub_diag. reflexivity.
    + destruct (IH (z + 1)) as [[H1 H2]|[H1 H2]].
      * left. split; [exact H1|]. unfold ones in *. simpl. exact H2.
      * right. split; [lia|].
        replace (Z.to_nat (find_selected c r (z + 1) - z))
          with (S (Z.to_nat (find_selected c r (z + 1) - (z + 1)))) by lia.
        exact H2.
Qed.

Lemma selectedIndexOf_spec (w : World) :
  (selectedIndexOf w = -1 /\ ones (selMap w) = 0%nat) \/
  (0 <= selectedIndexOf w < Z.of_nat (length (items w)) /\
   nth (Z.to_nat (selectedIndexOf w)) (selMap w) false = true).
Proof.
  unfold selectedIndexOf, selMap.
  destruct (find_selected_spec (selectedItemClass (cfg w)) (items w) 0) as [H|[H1 H2]].
  - left. exact H.
  - right. split; [lia|]. rewrite Z.sub_0_r in H2. exact H2.
Qed.






(** *** The selected class moves *)




















(** ** The chain of [transitionTo] *)
























(** ** The selection invariant along a run *)


























(** ** One selected item at every settled state *)






(** ** A page without a selected item never gets one *)

















(** ** The loops of the class, as functions on lists *)

Lemma update_nth_app {A} (f : A -> A) (pre : list A) (x : A) (r : list A) :
  update_nth (length pre) f (pre ++ x :: r) = pre ++ f x :: r.
Proof. induction pre as [|y p IH]; simpl; [reflexivity | rewrite IH; reflexivity]. Qed.

Lemma nth_error_mid {A} (pre : list A) (x : A) (r : list A) :
  nth_error (pre ++ x :: r) (length pre) = Some x.
Proof. induction pre as [|y p IH]; simpl; auto. Qed.

Lemma splice1_app {A} (pre : list A) (x : A) (r : list A) :
  splice1 (length pre) (pre ++ x :: r) = pre ++ r.
Proof. induction pre as [|y p IH]; simpl; [reflexivity | rewrite IH; reflexivity]. Qed.

Lemma app_cons_assoc {A} (pre : list A) (x : A) (r : list A) :
  pre ++ x :: r = (pre ++ [x]) ++ r.
Proof. rewrite <- app_assoc. reflexivity. Qed.

Lemma length_snoc {A} (pre : list A) (x : A) : length (pre ++ [x]) = S (length pre).
Proof. rewrite length_app. simpl. lia. Qed.



(** *** [getItemsFromElement] *)

Lemma filterLoop_filters {E} (classes : E -> list string) (cls : string)
    (rest pre : list E) (fuel : nat) :
  (length rest < fuel)%nat ->
  filterLoop classes fuel cls (pre ++ rest) (Z.of_nat (length pre)) =
  Returns (pre ++ filter (fun e => contains cls (classes e)) rest).
Proof.
  revert pre fuel. induction rest as [|x r IH]; intros pre fuel Hf;
    (destruct fuel as [|fuel]; [simpl in Hf; lia|]); simpl.
  - rewrite app_nil_r. rewrite Z.ltb_irrefl. reflexivity.
  - assert (Hlt : (Z.of_nat (length pre) <? Z.of_nat (length (pre ++ x :: r))) = true).
    { apply Z.ltb_lt. rewrite length_app. simpl. lia. }
    rewrite Hlt.
    assert (H0 : (0 <=? Z.of_nat (length pre)) = true) by (apply Z.leb_le; lia).
    rewrite H0, Nat2Z.id, nth_error_mid.
    destruct (contains cls (classes x)); simpl.
    + rewrite (app_cons_assoc pre x r).
      replace (Z.of_nat (length pre) + 1) with (Z.of_nat (length (pre ++ [x])))
        by (rewrite length_snoc; lia).
      rewrite IH by (simpl in Hf; lia).
      rewrite <- app_assoc. reflexivity.
    + rewrite splice1_app.
      replace (Z.of_nat (length pre) - 1 + 1) with (Z.of_nat (length pre)) by lia.
      apply IH. simpl in Hf. lia.
Qed.

(** [getItemsFromElement(id, cls)] returns the children of the element
    [id] that bear the class [cls], all of them and in document order: the
    in-place [splice] loop skips no child and drops none that bears the
    class, and ends within one iteration per child.  When no element has
    the id it throws a [TypeError] (reading [children] of [null]). *)
Theorem getItemsFromElement_filters {E} (classes : E -> list string)
    (document : Document E) (slideshowId slideshowItemClass : string) :
  (document slideshowId = None ->
   forall fuel,
     getItemsFromElement classes fuel document slideshowId slideshowItemClass = TypeError) /\
  (forall children fuel,
     document slideshowId = Some children -> (length children < fuel)%nat ->
     getItemsFromElement classes fuel document slideshowId slideshowItemClass =
     Returns (filter (fun e => contains slideshowItemClass (classes e)) children)).
Proof.
  unfold getItemsFromElement. split.
  - intros H fuel. rewrite H. reflexivity.
  - intros children fuel H Hf. rewrite H.
    apply (filterLoop_filters classes slideshowItemClass children [] fuel Hf).
Qed.

Lemma getItemsFromElement_filters_witness :
  let document := fun id : string =>
    if String.eqb id "quote-slideshow"
    then Some [slide "a"; mkItem ["caption"%string] []; slide "b"; mkItem [] []]
    else None in
  getItemsFromElement classList 5 document "quote-slideshow" "slideshow-item" =
    Returns [slide "a"; slide "b"] /\
  getItemsFromElement classList 5 document "missing" "slideshow-item" = TypeError.
Proof.
  intros document.
  destruct (getItemsFromElement_filters classList document "quote-slideshow" "slideshow-item")
    as [_ H].
  destruct (getItemsFromElement_filters classList document "missing" "slideshow-item")
    as [H' _].
  split.
  - apply (H [slide "a"; mkItem ["caption"%string] []; slide "b"; mkItem [] []] 5%nat).
    + reflexivity.
    + simpl. lia.
  - apply H'. reflexivity.
Defined.

(** *** [getSelectedIndex] *)

Lemma find_selected_first (c : string) (l : list Item) (z : Z) :
  let k := find_selected c l z in
  (k = -1 /\ forall it, In it l -> hasClass c it = false) \/
  (z <= k < z + Z.of_nat (length l) /\
   (exists it, nth_error l (Z.to_nat (k - z)) = Some it /\ hasClass c it = true) /\
   forall j it, (j < Z.to_nat (k - z))%nat -> nth_error l j = Some it ->
                hasClass c it = false).
Proof.
  revert z; induction l as [|x r IH]; intros z; simpl.
  - left. split; [reflexivity|]. intros it [].
  - change (contains c (classList x)) with (hasClass c x).
    destruct (hasClass c x) eqn:E.
    + right. split; [lia|]. rewrite Z.sub_diag. simpl. split.
      * exists x. auto.
      * intros j it Hj. lia.
    + destruct (IH (z + 1)) as [[H1 H2]|[H1 [[it [H2 H3]] H4]]].
      * left. split; [exact H1|]. intros it [<-|Hin]; auto.
      * right. split; [lia|].
        replace (Z.to_nat (find_selected c r (z + 1) - z))
          with (S (Z.to_nat (find_selected c r (z + 1) - (z + 1)))) by lia.
        split; [exists it; auto|].
        intros [|j] it' Hj Hn; simpl in Hn.
        -- injection Hn as <-. exact E.
        -- apply (H4 j it'); [lia | exact Hn].
Qed.

(** [getSelectedIndex()] changes nothing and returns the index of the first
    item that bears the selected class: an index of the item list no item
    before which bears it; or -1 when no item does. *)
Theorem getSelectedIndex_finds_first (w : World) :
  exists k, getSelectedIndex w = Ok k w /\
    ((k = -1 /\
      forall it, In it (items w) -> hasClass (selectedItemClass (cfg w)) it = false) \/
     (0 <= k < Z.of_nat (length (items w)) /\
      (exists it, nth_error (items w) (Z.to_nat k) = Some it /\
                  hasClass (selectedItemClass (cfg w)) it = true) /\
      forall j it, (j < Z.to_nat k)%nat -> nth_error (items w) j = Some it ->
                   hasClass (selectedItemClass (cfg w)) it = false)).
Proof.
  exists (selectedIndexOf w). split; [reflexivity|].
  unfold selectedIndexOf.
  destruct (find_selected_first (selectedItemClass (cfg w)) (items w) 0)
    as [H|[H1 [H2 H3]]]; [left; exact H | right].
  rewrite Z.sub_0_r in H2, H3. split; [lia|]. auto.
Qed.

(** *** [updateIndicators] and [initiateIndicators] *)

Lemma set_indicators_same (w : World) (l : list Indicator) :
  indicators w = Some l -> set_indicators (Some l) w = w.
Proof. destruct w; simpl; intros ->; reflexivity. Qed.







(** *** [reclauclatePositions] *)













(** *** The constructor *)

Lemma bind_assoc {A B C} (m : M A) (f : A -> M B) (g : B -> M C) (w : World) :
  bind (bind m f) g w = bind m (fun a => bind (f a) g) w.
Proof. unfold bind. destruct (m w); reflexivity. Qed.

Lemma initiateIndicators_loop (rest pre : list Indicator) (w : World) :
  indicators w = Some (pre ++ rest) ->
  forEach (seq (length pre) (length rest)) (fun i =>
    modify (fun w => match indicators w with
                     | Some l => set_indicators
                         (Some (update_nth i
                            (fun x => mkIndicator (i_classList x) (Some (Z.of_nat i))) l)) w
                     | None => w
                     end)) w =
  Ok tt (set_indicators (Some (pre ++ mapFrom (length pre) indexedIndicator rest)) w).
Proof.
  revert pre w. induction rest as [|x r IH]; intros pre w Hi.
  - simpl. rewrite set_indicators_same by exact Hi. reflexivity.
  - cbn [length seq forEach mapFrom].
    rewrite bind_ok
      with (w' := set_indicators (Some (pre ++ indexedIndicator (length pre) x :: r)) w)
           (a := tt)
      by (unfold modify; rewrite Hi, update_nth_app; reflexivity).
    rewrite <- (length_snoc pre (indexedIndicator (length pre) x)).
    rewrite (IH (pre ++ [indexedIndicator (length pre) x])
               (set_indicators (Some (pre ++ indexedIndicator (length pre) x :: r)) w))
      by (simpl; rewrite <- app_assoc; reflexivity).
    simpl. rewrite <- app_assoc, length_snoc. reflexivity.
Qed.

Lemma initiateIndicators_eq (l : list Indicator) (w : World) :
  indicators w = Some l ->
  initiateIndicators w = Ok tt (set_indicators (Some (mapFrom 0 indexedIndicator l)) w).
Proof.
  intros Hi. unfold initiateIndicators.
  rewrite bind_ok with (w' := w) (a := length l)
    by (unfold indicators_length; rewrite Hi; reflexivity).
  apply (initiateIndicators_loop l [] w Hi).
Qed.

Lemma constructor_effect
    (c : Config) (its : list Item) (inds : option (list Indicator)) :
  exists w, new_Slideshow c its inds = Ok tt w /\
    cfg w = c /\ items w = its /\
    transitioning w = false /\ autoTransitionDirection w = 1 /\
    timers w = [firstTick c] /\
    autoTransitionInterval w = Num 1 /\ autoTransitionTimeout w = Null /\
    match inds with
    | None => indicators w = None /\ console w = []
    | Some l =>
        if Nat.eqb (length its) (length l)
        then indicators w = Some (mapFrom 0 indexedIndicator l) /\ console w = []
        else indicators w = Some l /\ console w = [indicatorCountError]
    end.
Proof.
  unfold new_Slideshow, constructor. rewrite bind_gets.
  change (indicators (newWorld c its inds)) with inds.
  destruct inds as [l|].
  - rewrite bind_assoc, bind_gets.
    change (length (items (newWorld c its (Some l)))) with (length its).
    destruct (Nat.eqb (length its) (length l)); simpl negb; cbv iota.
    + erewrite bind_ok by (apply initiateIndicators_eq; reflexivity).
      eexists. split; [reflexivity|]. repeat split.
    + eexists. split; [reflexivity|]. repeat split.
  - eexists. split; [reflexivity|]. repeat split.
Qed.

(** [new Slideshow(...)] never throws, whatever the items and indicators.
    It leaves the items as given.  With indicators given in the same
    number as the items it sets [data-index] of indicator [i] to [i] and
    logs nothing; with a different number it logs one diagnostic and
    leaves the indicators as given; without indicators it does neither.
    In every case, also when [shouldAutoTransition] is false, it arms the
    auto-advance interval timer, with period [autoTransitionTime], as the
    only pending timer; the debounce flag is clear and the direction is
    forward. *)
Theorem constructor_starts_ticking
    (c : Config) (its : list Item) (inds : option (list Indicator)) :
  exists w, new_Slideshow c its inds = Ok tt w /\
    cfg w = c /\ items w = its /\
    transitioning w = false /\ autoTransitionDirection w = 1 /\
    timers w = [firstTick c] /\
    autoTransitionInterval w = Num 1 /\ autoTransitionTimeout w = Null /\
    match inds with
    | None => indicators w = None /\ console w = []
    | Some l =>
        if Nat.eqb (length its) (length l)
        then indicators w = Some (mapFrom 0 indexedIndicator l) /\ console w = []
        else indicators w = Some l /\ console w = [indicatorCountError]
    end.
Proof. apply constructor_effect. Qed.

(** ** What the transitions do when called *)






Lemma markTransitioning_undefined (e : bool) (cb : Callback) (w : World) :
  markTransitioning None e cb w =
  match transitioningClass (cfg w) with
  | Some _ => Throw (set_backupTimeoutVars (backupTimeoutVars w ++ [Undefined]) w)
  | None => Ok tt w
  end.
Proof.
  unfold markTransitioning. rewrite bind_gets.
  destruct (transitioningClass (cfg w)); reflexivity.
Qed.







Lemma markTransitioning_eq (j : nat) (e : bool) (cb : Callback) (c : string) (w : World) :
  transitioningClass (cfg w) = Some c ->
  markTransitioning (Some j) e cb w =
  Ok tt
    (on_item j (fun it => mkItem (token_add c (classList it)) (listeners it))
       (set_backupTimeoutVars
          (update_nth (length (backupTimeoutVars w)) (fun _ => Num (nextTimerId w))
             (backupTimeoutVars w ++ [Undefined]))
          (set_nextTimerId (nextTimerId w + 1)
             (set_timers
                (timers w ++
                 [mkTimer (nextTimerId w) (now w + 3000) None
                    (TfBackup (length (backupTimeoutVars w)) cb)])
                (on_item j
                   (fun it => mkItem (classList it)
                      (listeners it ++ [mkListener (length (backupTimeoutVars w)) e cb]))
                   (set_backupTimeoutVars (backupTimeoutVars w ++ [Undefined]) w)))))).
Proof.
  intros H. unfold markTransitioning. rewrite bind_gets, H.
  unfold bind, newBackupTimeoutVar, addEventListener, setTimeout, setBackupTimeoutVar,
    addClass, classList_add, modify, gets. simpl.
  unfold bind. simpl. unfold theTransitioningClass. simpl. rewrite H. reflexivity.
Qed.





Lemma nth_map_bool {A} (g : A -> bool) (l : list A) (k : nat) (x : A) :
  nth_error l k = Some x -> nth k (map g l) false = g x.
Proof.
  revert k; induction l as [|y r IH]; intros [|k] H; simpl in *; try discriminate.
  - injection H as ->. reflexivity.
  - apply IH. exact H.
Qed.

Lemma selectedIndexOf_is (w : World) (k : nat) :
  nth k (selMap w) false = true ->
  (forall j, (j < k)%nat -> nth j (selMap w) false = false) ->
  selectedIndexOf w = Z.of_nat k.
Proof.
  intros Hk Hbefore. unfold selectedIndexOf, selMap in *.
  destruct (find_selected_first (selectedItemClass (cfg w)) (items w) 0)
    as [[_ H]|[H1 [[it [H2 H3]] H4]]].
  - exfalso.
    destruct (nth_error (items w) k) as [x|] eqn:E.
    + rewrite (nth_map_bool _ _ _ _ E) in Hk.
      rewrite (H x) in Hk; [discriminate|]. eapply nth_error_In; exact E.
    + apply nth_error_None in E. rewrite nth_overflow in Hk by (rewrite length_map; lia).
      discriminate.
  - rewrite Z.sub_0_r in *. set (f := find_selected _ _ _) in *.
    destruct (Nat.lt_trichotomy (Z.to_nat f) k) as [Hlt|[He|Hgt]].
    + specialize (Hbefore _ Hlt). rewrite (nth_map_bool _ _ _ _ H2) in Hbefore. congruence.
    + lia.
    + exfalso. destruct (nth_error (items w) k) as [x|] eqn:E.
      * rewrite (nth_map_bool _ _ _ _ E) in Hk.
        rewrite (H4 k x Hgt E) in Hk. discriminate.
      * apply nth_error_None in E. lia.
Qed.

Lemma before_first (w : World) (j : nat) :
  (Z.of_nat j < selectedIndexOf w) -> nth j (selMap w) false = false.
Proof.
  intros Hj. unfold selectedIndexOf, selMap in *.
  destruct (find_selected_first (selectedItemClass (cfg w)) (items w) 0)
    as [[E _]|[H1 [_ H4]]]; [lia|].
  rewrite Z.sub_0_r in H4.
  destruct (nth_error (items w) j) as [x|] eqn:E.
  - rewrite (nth_map_bool _ _ _ _ E). apply (H4 j x); [lia | exact E].
  - apply nth_error_None in E. apply nth_overflow. rewrite length_map. exact E.
Qed.




















(** *** The lower boundary *)




(** ** The timers stay in order *)

Lemma Tidy_refl w : Tidy w w.
Proof. split; [apply Ext_refl | auto]. Qed.

Lemma Tidy_trans a b c : Tidy a b -> Tidy b c -> Tidy a c.
Proof.
  intros [E1 H1] [E2 H2]. split; [eapply Ext_trans; eauto|].
  intros Hw Ho. apply H2; [apply (E1 Hw) | apply H1; assumption].
Qed.

Lemma slotValue_own (w w' : World) (fn : TimerFn) (s : Slot) :
  ownSlot fn = Some s ->
  transitioningTimeout w' = transitioningTimeout w ->
  autoTransitionInterval w' = autoTransitionInterval w ->
  autoTransitionTimeout w' = autoTransitionTimeout w ->
  slotValue w' s = slotValue w s.
Proof.
  intros Hs H1 H2 H3. destruct fn; simpl in Hs; try discriminate;
    injection Hs as <-; simpl; assumption.
Qed.

Lemma Orderly_same (w w' : World) : sameTimers w w' -> Orderly w -> Orderly w'.
Proof.
  intros [Ht [Hn [Hf [H1 [H2 H3]]]]] [N [X [R [O D]]]]. unfold Orderly. rewrite Ht, Hn, Hf.
  split; [|split; [exact X | split; [exact R | split; [exact O | exact D]]]].
  intros t s Hin Hs. rewrite (slotValue_own w w' _ s Hs H1 H2 H3). auto.
Qed.

Lemma Tidy_same (w w' : World) : Ext w w' -> sameTimers w w' -> Tidy w w'.
Proof. intros He Hs. split; [exact He|]. intros _. apply Orderly_same. exact Hs. Qed.

Lemma tidy_classList_add item c : respects Tidy (classList_add item c).
Proof.
  intros w. apply Tidy_same; [apply ext_classList_add|].
  destruct item; repeat split.
Qed.

Lemma tidy_classList_remove item c : respects Tidy (classList_remove item c).
Proof.
  intros w. apply Tidy_same; [apply ext_classList_remove|].
  destruct item; repeat split.
Qed.

Lemma tidy_on_indicator j f : respects Tidy (modify (on_indicator j f)).
Proof.
  intros w. apply Tidy_same; [apply ext_on_indicator|].
  simpl. unfold on_indicator. destruct (indicators w); repeat split.
Qed.

Lemma tidy_vars :
  respects Tidy newSelectedLoopTimeoutVar /\
  (forall v, respects Tidy (newIVar v)) /\
  (forall a, respects Tidy (preIncrement a)).
Proof.
  split; [|split]; intros; intro w;
    (apply Tidy_same; [apply ext_vars | repeat split]).
Qed.

Lemma tidy_set_direction d : respects Tidy (modify (set_autoTransitionDirection d)).
Proof.
  intros w. apply Tidy_same; [|repeat split].
  simpl. ext_quiet.
Qed.

(** A timer that is not of the three kinds is added. *)
Lemma Orderly_more (w w' : World) (t : Timer) :
  timers w' = timers w ++ [t] -> ownSlot (t_fn t) = None -> t_period t = None ->
  now w' = now w -> transitioning w' = transitioning w ->
  transitioningTimeout w' = transitioningTimeout w ->
  autoTransitionInterval w' = autoTransitionInterval w ->
  autoTransitionTimeout w' = autoTransitionTimeout w ->
  Orderly w -> Orderly w'.
Proof.
  intros Ht Hk Hp Hn Hf H1 H2 H3 [N [X [R [O D]]]]. unfold Orderly. rewrite Ht, Hn, Hf.
  split; [|split; [|split; [|split]]].
  - intros t0 s Hin Hs. apply in_app_or in Hin. destruct Hin as [Hin|[<-|[]]].
    + rewrite (slotValue_own w w' _ s Hs H1 H2 H3). auto.
    + congruence.
  - intros a b Ha Hb Fa Fb.
    apply in_app_or in Ha. apply in_app_or in Hb.
    destruct Ha as [Ha|[<-|[]]]; [|rewrite Fa in Hk; discriminate].
    destruct Hb as [Hb|[<-|[]]]; [|rewrite Fb in Hk; discriminate].
    exact (X a b Ha Hb Fa Fb).
  - intros Hflag. destruct (R Hflag) as [t0 [Hin H]].
    exists t0. split; [apply in_or_app; left; exact Hin | exact H].
  - intros t0 Hin Hne. apply in_app_or in Hin. destruct Hin as [Hin|[<-|[]]]; auto.
  - intros t0 Hin F. apply in_app_or in Hin.
    destruct Hin as [Hin|[<-|[]]]; [exact (D t0 Hin F)|].
    rewrite F in Hk. discriminate.
Qed.

(** A timer is cancelled through a handle that is not the debounce
    handle. *)
Lemma Orderly_cancel (w : World) (s : Slot) (id : Z) :
  WF w -> slotValue w s = Num id -> s <> SDebounce ->
  Orderly w -> Orderly (set_timers (cancel id (timers w)) w).
Proof.
  intros Hw Hs Hne [N [X [R [O D]]]]. unfold Orderly. simpl.
  split; [|split; [|split; [|split]]].
  - intros t s' Hin Hs'. apply In_cancel in Hin. destruct Hin as [Hin _].
    rewrite (slotValue_own w _ _ s' Hs') by reflexivity. auto.
  - intros a b Ha Hb. apply In_cancel in Ha. apply In_cancel in Hb.
    apply X; tauto.
  - intros Hflag. destruct (R Hflag) as [t [Hin [Hf Hd]]].
    exists t. split; [|auto]. apply In_cancel. split; [exact Hin|].
    intros E. pose proof (proj2 (wf_slots w Hw s id Hs) t Hin E) as F.
    rewrite Hf in F. destruct s; simpl in F; solve [contradiction | congruence].
  - intros t Hin. apply In_cancel in Hin. apply O. tauto.
  - intros t Hin. apply In_cancel in Hin. apply D. tauto.
Qed.

Lemma tidy_clearSelectedLoopTimeout a : respects Tidy (clearSelectedLoopTimeout a).
Proof.
  intros w. split; [apply ext_clearSelectedLoopTimeout|].
  intros Hw Ho. unfold clearSelectedLoopTimeout, getSelectedLoopTimeoutVar.
  rewrite bind_gets.
  destruct (nth a (selectedLoopTimeoutVars w) Undefined) as [| |id] eqn:E; simpl; auto.
  apply (Orderly_cancel w (SLoop a) id); auto. discriminate.
Qed.

Lemma tidy_armSelectedLoopTimeout a k : respects Tidy (armSelectedLoopTimeout a k).
Proof.
  intros w. split; [apply ext_armSelectedLoopTimeout|].
  intros Hw Ho. eapply Orderly_more; try exact Ho; reflexivity.
Qed.

Lemma tidy_markTransitioning item e cb : respects Tidy (markTransitioning item e cb).
Proof.
  intros w. split; [apply ext_markTransitioning|].
  intros Hw Ho. destruct item as [j|].
  - destruct (transitioningClass (cfg w)) as [c|] eqn:H.
    + rewrite (markTransitioning_eq j e cb c w H). simpl.
      eapply Orderly_more; try exact Ho; reflexivity.
    + rewrite markTransitioning_unset by exact H. exact Ho.
  - rewrite markTransitioning_undefined.
    destruct (transitioningClass (cfg w)); [|exact Ho].
    simpl. eapply Orderly_same; [|exact Ho]. repeat split.
Qed.

Lemma Orderly_subset (w w' : World) :
  (forall t, In t (timers w') -> In t (timers w)) ->
  (forall t, In t (timers w') -> t_fn t <> TfDebounceRelease) ->
  transitioning w' = false ->
  transitioningTimeout w' = transitioningTimeout w ->
  autoTransitionInterval w' = autoTransitionInterval w ->
  autoTransitionTimeout w' = autoTransitionTimeout w ->
  Orderly w -> Orderly w'.
Proof.
  intros Hsub Hrel Hf H1 H2 H3 [N [X [R [O D]]]]. split; [|split; [|split; [|split]]].
  - intros t s Hin Hs. rewrite (slotValue_own w w' _ s Hs H1 H2 H3). auto.
  - intros a b Ha Hb. apply X; auto.
  - rewrite Hf. discriminate.
  - intros t Hin. apply O. auto.
  - intros t Hin F. destruct (Hrel t Hin F).
Qed.

(** The pending release timer is the one [transitioningTimeout] names. *)
Lemma release_named (w : World) (t : Timer) :
  Orderly w -> In t (timers w) -> t_fn t = TfDebounceRelease ->
  transitioningTimeout w = Num (t_id t).
Proof.
  intros [N _] Hin F. specialize (N t SDebounce Hin). rewrite F in N. exact (N eq_refl).
Qed.

Lemma release_gone (w : World) (id : Z) :
  Orderly w -> transitioningTimeout w = Num id ->
  forall t, In t (cancel id (timers w)) -> t_fn t <> TfDebounceRelease.
Proof.
  intros Ho E t Hin F. apply In_cancel in Hin. destruct Hin as [Hin Hne].
  pose proof (release_named w t Ho Hin F). congruence.
Qed.

Lemma release_none (w : World) :
  Orderly w -> isNullish (transitioningTimeout w) = true ->
  forall t, In t (timers w) -> t_fn t <> TfDebounceRelease.
Proof.
  intros Ho E t Hin F. rewrite (release_named w t Ho Hin F) in E. discriminate.
Qed.

Lemma tidy_releaseDebounce : respects Tidy releaseDebounce.
Proof.
  intros w. split; [apply ext_releaseDebounce|].
  intros Hw Ho. unfold releaseDebounce. rewrite !bind_gets.
  destruct (negb (isNullish (transitioningTimeout w)) && shouldDebounce (cfg w));
    [|exact Ho].
  destruct (transitioningTimeout w) as [| |id] eqn:E; simpl;
    (eapply Orderly_subset; [ | | | | | | exact Ho]; try reflexivity; simpl; auto).
  - apply release_none; [exact Ho | rewrite E; reflexivity].
  - apply release_none; [exact Ho | rewrite E; reflexivity].
  - intros t Hin. apply In_cancel in Hin. tauto.
  - apply release_gone; assumption.
Qed.

Lemma tidy_debounce : respects Tidy debounce.
Proof.
  intros w. split; [apply ext_debounce|]. intros Hw Ho.
  destruct (shouldDebounce (cfg w)) eqn:Hsd;
    [|rewrite debounce_disabled by exact Hsd; exact Ho].
  destruct (transitioning w) eqn:Hf;
    [rewrite debounce_blocked by assumption; exact Ho|].
  rewrite debounce_admitted by assumption. destruct Ho as [N [X [R [O D]]]].
  assert (Hnone : forall t, In t (timers (outcome (clearTransitioningTimeout
                                                     (set_transitioning true w)))) ->
                            In t (timers w) /\ t_fn t <> TfDebounceRelease).
  { intros t Hin. unfold clearTransitioningTimeout in Hin. rewrite bind_gets in Hin.
    simpl in Hin.
    destruct (transitioningTimeout w) as [| |id] eqn:E; simpl in Hin.
    - split; [exact Hin|]. intros Hfn.
      specialize (N t SDebounce Hin). rewrite Hfn in N. specialize (N eq_refl).
      simpl in N. congruence.
    - split; [exact Hin|]. intros Hfn.
      specialize (N t SDebounce Hin). rewrite Hfn in N. specialize (N eq_refl).
      simpl in N. congruence.
    - apply In_cancel in Hin. destruct Hin as [Hin Hne]. split; [exact Hin|].
      intros Hfn. specialize (N t SDebounce Hin). rewrite Hfn in N.
      specialize (N eq_refl). simpl in N. congruence. }
  set (w1 := outcome (clearTransitioningTimeout (set_transitioning true w))) in *.
  assert (F1 : now w1 = now w /\ nextTimerId w1 = nextTimerId w /\
               autoTransitionInterval w1 = autoTransitionInterval w /\
               autoTransitionTimeout w1 = autoTransitionTimeout w).
  { unfold w1, clearTransitioningTimeout. rewrite bind_gets. simpl.
    destruct (transitioningTimeout w); repeat split. }
  destruct F1 as [Hn1 [Hi1 [Ha1 Hb1]]].
  split; [|split; [|split; [|split]]].
  - intros t s Hin Hs. simpl in Hin. apply in_app_or in Hin.
    destruct Hin as [Hin|[<-|[]]].
    + destruct (Hnone t Hin) as [Hin0 Hk]. specialize (N t s Hin0 Hs).
      destruct (t_fn t); simpl in Hs; try discriminate; try congruence;
        injection Hs as <-; simpl in *; congruence.
    + simpl in Hs. injection Hs as <-. simpl. rewrite Hi1. reflexivity.
  - intros a b Ha Hb Fa Fb. simpl in Ha, Hb.
    apply in_app_or in Ha. apply in_app_or in Hb.
    destruct Ha as [Ha|[<-|[]]]; [|discriminate].
    destruct Hb as [Hb|[<-|[]]]; [|discriminate].
    exact (X a b (proj1 (Hnone a Ha)) (proj1 (Hnone b Hb)) Fa Fb).
  - intros _. eexists. split; [simpl; apply in_or_app; right; left; reflexivity|].
    split; [reflexivity|]. simpl. lia.
  - intros t Hin Hne. simpl in Hin. apply in_app_or in Hin.
    destruct Hin as [Hin|[<-|[]]]; [|reflexivity].
    apply O; [apply (Hnone t Hin) | exact Hne].
  - intros _ _ _. simpl. unfold w1, clearTransitioningTimeout. rewrite bind_gets. simpl.
    destruct (transitioningTimeout w); reflexivity.
Qed.

Lemma tidy_endDebounce : respects Tidy endDebounce.
Proof.
  intros w. split; [apply ext_endDebounce|]. intros Hw Ho.
  unfold endDebounce, clearTransitioningTimeout. rewrite bind_gets.
  destruct (shouldDebounce (cfg w)); [|exact Ho]. simpl.
  rewrite bind_assoc, bind_gets.
  destruct (transitioningTimeout w) as [| |id] eqn:E; simpl;
    (eapply Orderly_subset; [ | | | | | | exact Ho]; try reflexivity; simpl; auto).
  - apply release_none; [exact Ho | rewrite E; reflexivity].
  - apply release_none; [exact Ho | rewrite E; reflexivity].
  - intros t Hin. apply In_cancel in Hin. tauto.
  - apply release_gone; assumption.
Qed.

Lemma Slot_eq_dec (s s' : Slot) : {s = s'} + {s <> s'}.
Proof. decide equality; apply Nat.eq_dec. Qed.

(** The handle of the auto-advance interval, or of the resume timer, is
    cleared. *)
Lemma Orderly_cleared (w : World) (s : Slot) (id : Z) (w' : World) :
  WF w -> (s = SInterval \/ s = SResume) -> slotValue w s = Num id ->
  timers w' = cancel id (timers w) ->
  now w' = now w -> transitioning w' = transitioning w ->
  transitioningTimeout w' = transitioningTimeout w ->
  (forall s', s' <> s -> slotValue w' s' = slotValue w s') ->
  Orderly w ->
  Orderly w' /\ forall t, In t (timers w') -> ownSlot (t_fn t) <> Some s.
Proof.
  intros Hw Hs Hv Ht Hn Hf H1 Hother Ho.
  assert (Hgone : forall t, In t (timers w') -> ownSlot (t_fn t) <> Some s).
  { intros t Hin Hk. rewrite Ht in Hin. apply In_cancel in Hin. destruct Hin as [Hin Hne].
    destruct Ho as [N _]. specialize (N t s Hin Hk). congruence. }
  split; [|exact Hgone].
  pose proof (Orderly_cancel w s id Hw Hv) as Hc.
  assert (Hd : s <> SDebounce) by (destruct Hs; subst; discriminate).
  destruct (Hc Hd Ho) as [N [X [R [O D]]]]. simpl in N, X, R, O, D.
  split; [|split; [|split; [|split]]].
  - intros t s' Hin Hk. rewrite Ht in Hin.
    destruct (Slot_eq_dec s' s) as [->|Hne]; [exfalso; apply (Hgone t); [rewrite Ht|]; auto|].
    rewrite Hother by exact Hne. apply (N t s' Hin Hk).
  - rewrite Ht. exact X.
  - rewrite Ht, Hn, Hf. exact R.
  - rewrite Ht. exact O.
  - rewrite Ht, Hf. exact D.
Qed.

(** A field whose timers are all gone may hold anything. *)
Lemma Orderly_slot (w w' : World) (s : Slot) :
  timers w' = timers w -> now w' = now w -> transitioning w' = transitioning w ->
  (forall s', s' <> s -> slotValue w' s' = slotValue w s') ->
  (forall t, In t (timers w) -> ownSlot (t_fn t) <> Some s) ->
  Orderly w -> Orderly w'.
Proof.
  intros Ht Hn Hf Hother Hgone [N [X [R [O D]]]]. unfold Orderly. rewrite Ht, Hn, Hf.
  split; [|split; [exact X | split; [exact R | split; [exact O | exact D]]]].
  intros t s' Hin Hk.
  destruct (Slot_eq_dec s' s) as [->|Hne]; [exfalso; exact (Hgone t Hin Hk)|].
  rewrite Hother by exact Hne. exact (N t s' Hin Hk).
Qed.

Lemma clearAutoTransitionInterval_orderly (w : World) :
  WF w -> Orderly w ->
  Orderly (outcome (clearAutoTransitionInterval w)) /\
  (forall t, In t (timers (outcome (clearAutoTransitionInterval w))) ->
             In t (timers w) /\ t_fn t <> TfAutoInterval) /\
  autoTransitionTimeout (outcome (clearAutoTransitionInterval w)) = autoTransitionTimeout w.
Proof.
  intros Hw Ho. unfold clearAutoTransitionInterval. rewrite bind_gets.
  destruct (autoTransitionInterval w) as [| |id] eqn:E; simpl.
  - split; [exact Ho|]. split; [|reflexivity]. intros t Hin. split; [exact Hin|].
    intros Hfn. destruct Ho as [N _]. specialize (N t SInterval Hin).
    rewrite Hfn in N. specialize (N eq_refl). simpl in N. congruence.
  - split; [exact Ho|]. split; [|reflexivity]. intros t Hin. split; [exact Hin|].
    intros Hfn. destruct Ho as [N _]. specialize (N t SInterval Hin).
    rewrite Hfn in N. specialize (N eq_refl). simpl in N. congruence.
  - destruct (Orderly_cleared w SInterval id
                (set_autoTransitionInterval Null (set_timers (cancel id (timers w)) w)))
      as [Ho' Hgone]; auto.
    { intros s' Hne. destruct s'; try reflexivity. contradiction. }
    split; [exact Ho'|]. split; [|reflexivity]. intros t Hin. split.
    + simpl in Hin. apply In_cancel in Hin. tauto.
    + intros Hfn. apply (Hgone t Hin). rewrite Hfn. reflexivity.
Qed.

Lemma clearAutoTransitionTimeout_orderly (w : World) :
  WF w -> Orderly w ->
  Orderly (outcome (clearAutoTransitionTimeout w)) /\
  (forall t, In t (timers (outcome (clearAutoTransitionTimeout w))) ->
             In t (timers w) /\ t_fn t <> TfAutoResume).
Proof.
  intros Hw Ho. unfold clearAutoTransitionTimeout. rewrite bind_gets.
  destruct (autoTransitionTimeout w) as [| |id] eqn:E; simpl.
  - split; [exact Ho|]. intros t Hin. split; [exact Hin|].
    intros Hfn. destruct Ho as [N _]. specialize (N t SResume Hin).
    rewrite Hfn in N. specialize (N eq_refl). simpl in N. congruence.
  - split; [exact Ho|]. intros t Hin. split; [exact Hin|].
    intros Hfn. destruct Ho as [N _]. specialize (N t SResume Hin).
    rewrite Hfn in N. specialize (N eq_refl). simpl in N. congruence.
  - destruct (Orderly_cleared w SResume id
                (set_autoTransitionTimeout Null (set_timers (cancel id (timers w)) w)))
      as [Ho' Hgone]; auto.
    { intros s' Hne. destruct s'; try reflexivity. contradiction. }
    split; [exact Ho'|]. intros t Hin. split.
    + simpl in Hin. apply In_cancel in Hin. tauto.
    + intros Hfn. apply (Hgone t Hin). rewrite Hfn. reflexivity.
Qed.

(** Arming the auto-advance interval, or the resume timer, when neither is
    pending. *)
Lemma Orderly_armed (w w' : World) (fn : TimerFn) (s : Slot) (due : Z) (p : option Z) :
  ownSlot fn = Some s ->
  (fn <> TfAutoInterval -> p = None) ->
  (forall t, In t (timers w) -> t_fn t <> TfAutoInterval /\ t_fn t <> TfAutoResume) ->
  (s = SInterval \/ s = SResume) ->
  timers w' = timers w ++ [mkTimer (nextTimerId w) due p fn] ->
  slotValue w' s = Num (nextTimerId w) ->
  (forall s', s' <> s -> slotValue w' s' = slotValue w s') ->
  now w' = now w -> transitioning w' = transitioning w ->
  Orderly w -> Orderly w'.
Proof.
  intros Hk Hp Hnone Hs Ht Hv Hother Hn Hf [N [X [R [O D]]]]. unfold Orderly.
  rewrite Ht, Hn, Hf. split; [|split; [|split; [|split]]].
  - intros t s' Hin Hk'. apply in_app_or in Hin. destruct Hin as [Hin|[<-|[]]].
    + destruct (Hnone t Hin) as [H1 H2].
      assert (Hne : s' <> s).
      { intros ->. destruct (t_fn t); simpl in Hk'; try discriminate;
          destruct Hs; subst; congruence. }
      rewrite Hother by exact Hne. exact (N t s' Hin Hk').
    + simpl in Hk'. simpl. rewrite Hk in Hk'. injection Hk' as <-. exact Hv.
  - intros a b Ha Hb Fa Fb. apply in_app_or in Ha. apply in_app_or in Hb.
    destruct Ha as [Ha|[<-|[]]]; [exact (proj1 (Hnone a Ha) Fa)|].
    destruct Hb as [Hb|[<-|[]]]; [exact (proj2 (Hnone b Hb) Fb)|].
    simpl in Fa, Fb. congruence.
  - intros Hflag. destruct (R Hflag) as [t0 [Hin H]].
    exists t0. split; [apply in_or_app; left; exact Hin | exact H].
  - intros t Hin Hne. apply in_app_or in Hin. destruct Hin as [Hin|[<-|[]]]; auto.
  - intros t Hin F. apply in_app_or in Hin.
    destruct Hin as [Hin|[<-|[]]]; [exact (D t Hin F)|].
    simpl in F. subst fn. simpl in Hk. destruct Hs; congruence.
Qed.

Lemma armAutoTransitionTimeout_orderly (w : World) :
  (forall t, In t (timers w) -> t_fn t <> TfAutoInterval /\ t_fn t <> TfAutoResume) ->
  Orderly w -> Orderly (outcome (armAutoTransitionTimeout w)).
Proof.
  intros Hnone Ho. unfold armAutoTransitionTimeout. rewrite bind_gets.
  unfold bind, setTimeout. simpl.
  eapply (Orderly_armed w _ TfAutoResume SResume _ None);
    [ reflexivity | reflexivity | exact Hnone | right; reflexivity | reflexivity
    | reflexivity | | reflexivity | reflexivity | exact Ho ].
  intros s' Hne. destruct s'; try reflexivity. contradiction.
Qed.

Lemma armAutoTransitionInterval_orderly (w : World) :
  (forall t, In t (timers w) -> t_fn t <> TfAutoInterval /\ t_fn t <> TfAutoResume) ->
  Orderly w -> Orderly (outcome (armAutoTransitionInterval w)).
Proof.
  intros Hnone Ho. unfold armAutoTransitionInterval. rewrite bind_gets.
  unfold bind, setInterval. simpl.
  eapply (Orderly_armed w _ TfAutoInterval SInterval);
    [ reflexivity | congruence | exact Hnone | left; reflexivity | reflexivity
    | reflexivity | | reflexivity | reflexivity | exact Ho ].
  intros s' Hne. destruct s'; try reflexivity. contradiction.
Qed.

Lemma outcome_seq (m : M unit) (k : M unit) (w : World) :
  threw (m w) = false -> outcome ((m ;; k) w) = outcome (k (outcome (m w))).
Proof. unfold bind, threw, outcome. destruct (m w); [reflexivity | discriminate]. Qed.

Lemma clearAutoTransitionInterval_returns w : threw (clearAutoTransitionInterval w) = false.
Proof.
  unfold clearAutoTransitionInterval. rewrite bind_gets.
  destruct (autoTransitionInterval w); reflexivity.
Qed.

Lemma clearAutoTransitionTimeout_returns w : threw (clearAutoTransitionTimeout w) = false.
Proof.
  unfold clearAutoTransitionTimeout. rewrite bind_gets.
  destruct (autoTransitionTimeout w); reflexivity.
Qed.

(** [stopAutoTransition] leaves the resume timer as the only timer of
    auto-advance. *)
Lemma tidy_stopAutoTransition : respects Tidy stopAutoTransition.
Proof.
  intros w. split; [apply ext_stopAutoTransition|]. intros Hw Ho.
  unfold stopAutoTransition.
  rewrite outcome_seq by apply clearAutoTransitionInterval_returns.
  destruct (clearAutoTransitionInterval_orderly w Hw Ho) as [Ho1 [H1 _]].
  pose proof (proj1 (ext_clearAutoTransitionInterval w Hw)) as Hw1.
  set (w1 := outcome (clearAutoTransitionInterval w)) in *.
  rewrite outcome_seq by apply clearAutoTransitionTimeout_returns.
  destruct (clearAutoTransitionTimeout_orderly w1 Hw1 Ho1) as [Ho2 H2].
  set (w2 := outcome (clearAutoTransitionTimeout w1)) in *.
  apply armAutoTransitionTimeout_orderly; [|exact Ho2].
  intros t Hin. destruct (H2 t Hin) as [Hin1 Hne]. split; [|exact Hne].
  exact (proj2 (H1 t Hin1)).
Qed.

(** [startAutoTransition], called while no resume timer is pending, leaves
    the interval as the only timer of auto-advance. *)
Lemma startAutoTransition_orderly (w : World) :
  WF w -> Orderly w ->
  (forall t, In t (timers w) -> t_fn t <> TfAutoResume) ->
  Orderly (outcome (startAutoTransition w)) /\
  (forall t, In t (timers (outcome (startAutoTransition w))) -> t_fn t <> TfAutoResume) /\
  autoTransitionTimeout (outcome (startAutoTransition w)) = autoTransitionTimeout w.
Proof.
  intros Hw Ho Hnone. unfold startAutoTransition.
  rewrite outcome_seq by apply clearAutoTransitionInterval_returns.
  destruct (clearAutoTransitionInterval_orderly w Hw Ho) as [Ho1 [H1 Hv]].
  set (w1 := outcome (clearAutoTransitionInterval w)) in *.
  split; [|split].
  - apply armAutoTransitionInterval_orderly; [|exact Ho1].
    intros t Hin. destruct (H1 t Hin) as [Hin0 Hne]. split; [exact Hne | auto].
  - unfold armAutoTransitionInterval. rewrite bind_gets. unfold bind, setInterval. simpl.
    intros t Hin. apply in_app_or in Hin. destruct Hin as [Hin|[<-|[]]]; [|discriminate].
    apply Hnone. exact (proj1 (H1 t Hin)).
  - unfold armAutoTransitionInterval. rewrite bind_gets. unfold bind, setInterval. simpl.
    exact Hv.
Qed.

(** *** The methods *)

Ltac tidy_leaf :=
  first
    [ apply tidy_classList_add
    | apply tidy_classList_remove
    | apply tidy_on_indicator
    | apply tidy_set_direction
    | apply tidy_clearSelectedLoopTimeout
    | apply tidy_armSelectedLoopTimeout
    | apply tidy_releaseDebounce
    | apply tidy_markTransitioning
    | apply (proj1 tidy_vars)
    | apply (proj1 (proj2 tidy_vars))
    | apply (proj2 (proj2 tidy_vars))
    | apply tidy_debounce
    | apply tidy_endDebounce
    | apply tidy_stopAutoTransition ].

Ltac tidy := respects_with Tidy_refl Tidy_trans tidy_leaf.

Lemma tidy_resetAllTransitioning : respects Tidy resetAllTransitioning.
Proof. unfold resetAllTransitioning. tidy. Qed.

Lemma tidy_updateIndicators k : respects Tidy (updateIndicators k).
Proof. unfold updateIndicators. tidy. Qed.

Lemma tidy_reclauclatePositions k b : respects Tidy (reclauclatePositions k b).
Proof. unfold reclauclatePositions. tidy. Qed.

Lemma tidy_callFinal f : respects Tidy (callFinal f).
Proof. unfold callFinal. tidy. Qed.

Ltac tidy_method :=
  first
    [ apply tidy_resetAllTransitioning
    | apply tidy_updateIndicators
    | apply tidy_reclauclatePositions
    | apply tidy_callFinal
    | tidy_leaf ].

Ltac tidy_methods := respects_with Tidy_refl Tidy_trans tidy_method.

Lemma tidy_transitionToPrevLoop s d i f : respects Tidy (transitionToPrevLoop s d i f).
Proof. unfold transitionToPrevLoop. tidy_methods. Qed.

Lemma tidy_transitionToNextLoop s d i f : respects Tidy (transitionToNextLoop s d i f).
Proof. unfold transitionToNextLoop. tidy_methods. Qed.

Lemma tidy_call cb : respects Tidy (call cb).
Proof.
  unfold call.
  respects_with Tidy_refl Tidy_trans
    ltac:(first [ apply tidy_transitionToPrevLoop | apply tidy_transitionToNextLoop
                | tidy_method ]).
Qed.

Lemma tidy_transitionForward auto : respects Tidy (transitionForward auto).
Proof. unfold transitionForward, getSelectedIndex, items_length. tidy_methods. Qed.

Lemma tidy_transitionBackward auto : respects Tidy (transitionBackward auto).
Proof. unfold transitionBackward, getSelectedIndex, items_length. tidy_methods. Qed.

Lemma tidy_transitionTo k : respects Tidy (transitionTo k).
Proof.
  unfold transitionTo, getSelectedIndex, items_length.
  respects_with Tidy_refl Tidy_trans
    ltac:(first [ apply tidy_transitionToPrevLoop | apply tidy_transitionToNextLoop
                | tidy_method ]).
Qed.

Lemma tidy_autoTransition : respects Tidy autoTransition.
Proof.
  unfold autoTransition, isAtEnd, isAtFront, getSelectedIndex, items_length.
  respects_with Tidy_refl Tidy_trans
    ltac:(first [ apply tidy_transitionForward | apply tidy_transitionBackward | tidy_leaf ]).
Qed.

(** *** Along a run *)

Lemma Tidy_keeps (w w' : World) :
  Tidy w w' -> WF w /\ Orderly w -> WF w' /\ Orderly w'.
Proof.
  intros [He Ho] [Hw H]. split; [exact (proj1 (He Hw)) | exact (Ho Hw H)].
Qed.

(** The clock moves on. *)
Lemma Orderly_later (w w' : World) :
  timers w' = timers w -> now w <= now w' -> transitioning w' = transitioning w ->
  transitioningTimeout w' = transitioningTimeout w ->
  autoTransitionInterval w' = autoTransitionInterval w ->
  autoTransitionTimeout w' = autoTransitionTimeout w ->
  Orderly w -> Orderly w'.
Proof.
  intros Ht Hn Hf H1 H2 H3 [N [X [R [O D]]]]. unfold Orderly. rewrite Ht, Hf.
  split; [|split; [exact X | split; [|split; [exact O | exact D]]]].
  - intros t s Hin Hs. rewrite (slotValue_own w w' _ s Hs H1 H2 H3). auto.
  - intros Hflag. destruct (R Hflag) as [t0 [Hin [Hfn Hd]]].
    exists t0. split; [exact Hin|]. split; [exact Hfn | lia].
Qed.

Lemma kept_invoke (v : nat) (cb : Callback) (w : World) :
  WF w /\ Orderly w -> (v < length (backupTimeoutVars w))%nat ->
  WF (outcome (invoke v cb w)) /\ Orderly (outcome (invoke v cb w)).
Proof.
  intros [Hw Ho] Hv. rewrite invoke_eq.
  assert (H : WF (set_trace (Invoked v :: trace w) w) /\
              Orderly (set_trace (Invoked v :: trace w) w)).
  { split; [apply WF_observe; assumption|].
    apply (Orderly_same w); [repeat split | exact Ho]. }
  destruct cb; try exact (conj Hw Ho);
    exact (Tidy_keeps _ _ (tidy_call _ _) H).
Qed.

Lemma kept_tail (e : bool) (v : nat) (cb : Callback) (w : World) :
  WF w /\ Orderly w -> (v < length (backupTimeoutVars w))%nat ->
  WF (outcome ((when e releaseDebounce ;; invoke v cb) w)) /\
  Orderly (outcome ((when e releaseDebounce ;; invoke v cb) w)).
Proof.
  intros H Hv.
  assert (Hr : Tidy w (outcome (when e releaseDebounce w)))
    by (apply (respects_when _ Tidy_refl), tidy_releaseDebounce).
  pose proof (Tidy_keeps _ _ Hr H) as H1.
  assert (Hv1 : (v < length (backupTimeoutVars (outcome (when e releaseDebounce w))))%nat).
  { destruct Hr as [He _]. destruct (He (proj1 H)) as [_ [_ [_ [_ [_ [_ [Hlen _]]]]]]]. lia. }
  apply (outcome_bind_cases (when e releaseDebounce) (fun _ => invoke v cb) w
           (fun w' => WF w' /\ Orderly w')).
  - intros _. apply kept_invoke; assumption.
  - intros _. exact H1.
Qed.

Lemma kept_listener (j : nat) (L : Listener) (w : World) :
  WF w /\ Orderly w -> In L (listenersOf j w) ->
  WF (outcome (onTransitionEnd j L w)) /\ Orderly (outcome (onTransitionEnd j L w)).
Proof.
  intros [Hw Ho] HL. rewrite onTransitionEnd_eq.
  pose proof (WF_detached j (l_var L) w Hw) as Hw1.
  pose proof (detached_no_var j L w Hw HL) as Hno1.
  assert (Ho1 : Orderly (detached j (l_var L) w))
    by (apply (Orderly_same w); [repeat split | exact Ho]).
  destruct (nth (l_var L) (backupTimeoutVars w) Undefined) as [| |x] eqn:Hx;
    try exact (conj Hw1 Ho1).
  set (w2 := set_timers (cancel x (timers w)) (detached j (l_var L) w)).
  assert (Hw2 : WF w2).
  { apply (WF_cleared (l_var L) x (detached j (l_var L) w)); [exact Hw1 | exact Hx |].
    intros j' L' H'. eapply Hno1; exact H'. }
  assert (Ho2 : Orderly w2).
  { apply (Orderly_cancel (detached j (l_var L) w) (SBackup (l_var L)) x);
      [exact Hw1 | exact Hx | discriminate | exact Ho1]. }
  apply kept_tail; [exact (conj Hw2 Ho2)|].
  apply (wf_vars w Hw j L HL).
Qed.

Lemma In_afterFiring (t : Timer) (clock : Z) (l : list Timer) (t' : Timer) :
  In t' (afterFiring t clock l) ->
  (In t' l /\ t_id t' <> t_id t) \/
  (exists p, t_period t = Some p /\
             t' = mkTimer (t_id t) (clock + Z.max 0 p) (Some p) (t_fn t)).
Proof.
  intros H. unfold afterFiring in H. destruct (t_period t) as [p|].
  - apply in_app_or in H. destruct H as [H|[<-|[]]].
    + left. apply In_cancel; exact H.
    + right. exists p. auto.
  - left. apply In_cancel; exact H.
Qed.

(** A timer other than the debounce release is taken out to run. *)
Lemma Orderly_fired (t : Timer) (clock : Z) (w : World) :
  WF w -> In t (timers w) -> t_fn t <> TfDebounceRelease -> now w <= clock ->
  Orderly w ->
  Orderly (set_now clock (set_timers (afterFiring t clock (timers w)) w)).
Proof.
  intros Hw Ht Hfn Hnow [N [X [R [O D]]]].
  assert (Hold : forall t', In t' (afterFiring t clock (timers w)) ->
                   exists t0, In t0 (timers w) /\ t_fn t0 = t_fn t' /\ t_id t0 = t_id t' /\
                              (t_period t' = t_period t0)).
  { intros t' H. destruct (In_afterFiring _ _ _ _ H) as [[H1 _]|[p [Hp ->]]].
    - exists t'. auto.
    - exists t. simpl. auto. }
  split; [|split; [|split; [|split]]]; simpl.
  - intros t' s H Hs. destruct (Hold t' H) as [t0 [H0 [F0 [I0 _]]]].
    rewrite <- I0. apply (N t0 s H0). rewrite F0. exact Hs.
  - intros a b Ha Hb Fa Fb.
    destruct (Hold a Ha) as [a0 [Ha0 [Fa0 _]]].
    destruct (Hold b Hb) as [b0 [Hb0 [Fb0 _]]].
    apply (X a0 b0); congruence.
  - intros Hflag. destruct (R Hflag) as [t0 [Hin [F0 Hd]]].
    exists t0. split; [|split; [exact F0 | lia]].
    assert (Hne : t_id t0 <> t_id t).
    { intros E. assert (t0 = t) by (eapply same_id_same_timer; eauto). congruence. }
    unfold afterFiring. destruct (t_period t);
      [apply in_or_app; left|]; apply In_cancel; auto.
  - intros t' H Hne. destruct (Hold t' H) as [t0 [H0 [F0 [_ P0]]]].
    rewrite P0. apply (O t0 H0). congruence.
  - intros t' H F. destruct (Hold t' H) as [t0 [H0 [F0 _]]].
    apply (D t0 H0). congruence.
Qed.

Lemma startAutoTransition_returns w : threw (startAutoTransition w) = false.
Proof.
  unfold startAutoTransition, bind.
  pose proof (clearAutoTransitionInterval_returns w) as H.
  destruct (clearAutoTransitionInterval w); [reflexivity | discriminate].
Qed.

Lemma resetAutoTransitionTimeout_orderly (w : World) :
  WF w -> Orderly w ->
  (forall t, In t (timers w) -> t_fn t <> TfAutoResume) ->
  Orderly (outcome (resetAutoTransitionTimeout w)).
Proof.
  intros Hw Ho Hnone. unfold resetAutoTransitionTimeout. rewrite bind_gets.
  assert (Hgone : forall t, In t (timers w) -> ownSlot (t_fn t) <> Some SResume).
  { intros t Hin Hk. apply (Hnone t Hin).
    destruct (t_fn t); simpl in Hk; try discriminate. reflexivity. }
  destruct (autoTransitionTimeout w) as [| |id] eqn:E; simpl.
  - apply (Orderly_slot w _ SResume); try reflexivity; auto.
    intros s' Hne. destruct s'; try reflexivity. contradiction.
  - apply (Orderly_slot w _ SResume); try reflexivity; auto.
    intros s' Hne. destruct s'; try reflexivity. contradiction.
  - apply (Orderly_slot (set_timers (cancel id (timers w)) w) _ SResume); try reflexivity.
    + intros s' Hne. destruct s'; try reflexivity. contradiction.
    + simpl. intros t Hin. apply In_cancel in Hin. apply Hgone. tauto.
    + apply (Orderly_cancel w SResume id); [exact Hw | exact E | discriminate | exact Ho].
Qed.

Lemma kept_timer (t : Timer) (w : World) :
  WF w /\ Orderly w -> In t (timers w) ->
  (forall t', In t' (timers w) -> t_due t <= t_due t') ->
  WF (outcome (timerBody (t_fn t)
       (set_now (Z.max (now w) (t_due t))
          (set_timers (afterFiring t (Z.max (now w) (t_due t)) (timers w)) w)))) /\
  Orderly (outcome (timerBody (t_fn t)
       (set_now (Z.max (now w) (t_due t))
          (set_timers (afterFiring t (Z.max (now w) (t_due t)) (timers w)) w)))).
Proof.
  intros [Hw Ho] Ht Hearly.
  set (clock := Z.max (now w) (t_due t)).
  assert (Hclock : forall t', In t' (timers w) -> t_id t' <> t_id t -> clock <= t_due t').
  { intros t' Ht' _. specialize (Hearly t' Ht'). pose proof (wf_due w Hw t' Ht'). lia. }
  assert (Hnow : now w <= clock) by (unfold clock; lia).
  destruct (isBackup (t_fn t)) eqn:Hb.
  - destruct (t_fn t) as [| |a' cb'| |] eqn:Hf; try discriminate.
    assert (Hp : t_period t = None) by (apply (wf_oneshot w Hw t Ht); rewrite Hf; reflexivity).
    assert (Ho1 : Orderly (set_now clock
                     (set_timers (afterFiring t clock (timers w)) w)))
      by (apply Orderly_fired; auto; congruence).
    unfold afterFiring in *. rewrite Hp in *.
    change (timerBody (TfBackup a' cb')) with (backupTimeoutFn a' cb').
    unfold backupTimeoutFn, setBackupTimeoutVar. rewrite bind_modify. cbv beta.
    change (backupTimeoutVars (set_now clock (set_timers (cancel (t_id t) (timers w)) w)))
      with (backupTimeoutVars w).
    pose proof (WF_backup_fired t a' cb' clock w Hw Ht Hf Hclock) as Hw2.
    pose proof (wf_backups w Hw t a' cb' Ht Hf) as Hcell.
    assert (Ha' : (a' < length (backupTimeoutVars w))%nat).
    { destruct (Nat.lt_ge_cases a' (length (backupTimeoutVars w))) as [H'|H']; [exact H'|].
      rewrite nth_overflow in Hcell by exact H'. discriminate. }
    set (w2 := set_backupTimeoutVars _ _) in *.
    change (releaseDebounce ;; invoke a' cb')
      with (when true releaseDebounce ;; invoke a' cb').
    apply kept_tail.
    + split; [exact Hw2|]. unfold w2.
      eapply Orderly_same; [|exact Ho1]. repeat split.
    + unfold w2. simpl. rewrite update_nth_length. exact Ha'.
  - pose proof (WF_other_fired t clock w Hw Ht Hb Hnow Hclock) as Hw1.
    pose proof (ext_timerBody (t_fn t) Hb _ Hw1) as He.
    split; [exact (proj1 He)|]. clear He.
    pose proof Ho as [N [X [R [O D]]]].
    destruct (t_fn t) as [|k| | |] eqn:Hf; try discriminate.
    + assert (Hp : t_period t = None) by (apply (O t Ht); congruence).
      apply (Orderly_subset w); try reflexivity; [| |exact Ho].
      * simpl. unfold afterFiring. rewrite Hp. intros t' H. apply In_cancel in H. tauto.
      * simpl. unfold afterFiring. rewrite Hp.
        apply release_gone; [exact Ho | apply release_named; assumption].
    + assert (Ho1 : Orderly (set_now clock
                       (set_timers (afterFiring t clock (timers w)) w)))
        by (apply Orderly_fired; auto; congruence).
      exact (proj2 (tidy_reclauclatePositions k false _) Hw1 Ho1).
    + assert (Ho1 : Orderly (set_now clock
                       (set_timers (afterFiring t clock (timers w)) w)))
        by (apply Orderly_fired; auto; congruence).
      exact (proj2 (tidy_autoTransition _) Hw1 Ho1).
    + assert (Ho1 : Orderly (set_now clock
                       (set_timers (afterFiring t clock (timers w)) w)))
        by (apply Orderly_fired; auto; congruence).
      assert (Hp : t_period t = None) by (apply (O t Ht); congruence).
      set (w1 := set_now clock _) in *.
      assert (Hnone : forall t', In t' (timers w1) -> t_fn t' <> TfAutoResume).
      { unfold w1. simpl. unfold afterFiring. rewrite Hp. intros t' H F.
        apply In_cancel in H. destruct H as [H Hne]. apply Hne.
        pose proof (N t' SResume H) as N1. rewrite F in N1. specialize (N1 eq_refl).
        pose proof (N t SResume Ht) as N2. rewrite Hf in N2. specialize (N2 eq_refl).
        congruence. }
      simpl timerBody. rewrite outcome_seq by apply startAutoTransition_returns.
      destruct (startAutoTransition_orderly w1 Hw1 Ho1 Hnone) as [Ho2 [Hnone2 _]].
      apply resetAutoTransitionTimeout_orderly; auto.
      apply (ext_startAutoTransition w1 Hw1).
Qed.

Lemma kept_step (e : Event) (w w' : World) :
  step e w = Some w' -> WF w /\ Orderly w -> WF w' /\ Orderly w'.
Proof.
  intros Hs. apply (step_invariant (fun w => WF w /\ Orderly w) (fun _ => True)) with (e := e);
    auto.
  - intros auto w0. apply Tidy_keeps, tidy_transitionForward.
  - intros auto w0. apply Tidy_keeps, tidy_transitionBackward.
  - intros k w0 _. apply Tidy_keeps, tidy_transitionTo.
  - intros j L w0. apply kept_listener.
  - intros t w0. apply kept_timer.
  - intros t w0 [Hw Ho] Hn Hd. split; [apply WF_wait; assumption|].
    apply (Orderly_later w0); auto.
Qed.

Lemma kept_run (es : list Event) (w w' : World) :
  run es w = Some w' -> WF w /\ Orderly w -> WF w' /\ Orderly w'.
Proof.
  intros Hr. apply (run_invariant (fun w => WF w /\ Orderly w) (fun _ => True)) with (es := es).
  - intros e w1 w2 _. apply kept_step.
  - clear. induction es; constructor; auto.
  - exact Hr.
Qed.

Lemma new_Slideshow_timers (c : Config) (its : list Item) (inds : option (list Indicator)) :
  cfg (outcome (new_Slideshow c its inds)) = c /\
  now (outcome (new_Slideshow c its inds)) = 0 /\
  timers (outcome (new_Slideshow c its inds)) = [firstTick c] /\
  transitioning (outcome (new_Slideshow c its inds)) = false /\
  autoTransitionInterval (outcome (new_Slideshow c its inds)) = Num 1.
Proof.
  destruct (constructor_effect c its inds) as [w [E [Hc [_ [Hf [_ [Ht [Hi _]]]]]]]].
  rewrite E. simpl. repeat split; try assumption.
  unfold new_Slideshow, constructor in E. rewrite bind_gets in E.
  change (indicators (newWorld c its inds)) with inds in E.
  destruct inds as [l|].
  - rewrite bind_assoc, bind_gets in E.
    change (length (items (newWorld c its (Some l)))) with (length its) in E.
    destruct (Nat.eqb (length its) (length l)); simpl negb in E; cbv iota in E.
    + erewrite bind_ok in E by (apply initiateIndicators_eq; reflexivity).
      injection E as <-. reflexivity.
    + injection E as <-. reflexivity.
  - injection E as <-. reflexivity.
Qed.

Lemma kept_new (c : Config) (its : list Item) (inds : option (list Indicator)) :
  concat (map listeners its) = [] ->
  WF (outcome (new_Slideshow c its inds)) /\ Orderly (outcome (new_Slideshow c its inds)).
Proof.
  intros Hl. split; [apply WF_new_Slideshow; exact Hl|].
  destruct (new_Slideshow_timers c its inds) as [_ [_ [Ht [Hf Hi]]]].
  unfold Orderly. rewrite Ht, Hf. split; [|split; [|split; [|split]]].
  - intros t s [<-|[]] Hs. simpl in Hs. injection Hs as <-. exact Hi.
  - intros a b _ [<-|[]] _ Fb. discriminate.
  - discriminate.
  - intros t [<-|[]] Hne. contradiction Hne. reflexivity.
  - intros t [<-|[]] F. discriminate.
Qed.

(** ** The timers of a running slideshow *)

(** The debounce flag and its release timer, at every state a slideshow
    reaches from its construction, by any interleaving of calls, completion
    signals, timers and waiting.  While the flag is set, a one-shot release
    timer is pending; it is the timer [transitioningTimeout] names, it is
    due no later than 3000 ms from now, and when it fires the flag is clear.
    Conversely a release timer is pending only while the flag is set. *)
Theorem debounce_flag_is_released
    (c : Config) (its : list Item) (inds : option (list Indicator))
    (es : list Event) (w : World) :
  concat (map listeners its) = [] ->
  run es (outcome (new_Slideshow c its inds)) = Some w ->
  (transitioning w = true ->
   exists t, In t (timers w) /\ t_fn t = TfDebounceRelease /\ t_period t = None /\
             transitioningTimeout w = Num (t_id t) /\
             now w <= t_due t <= now w + 3000 /\
             forall w', step (Fire (t_id t)) w = Some w' -> transitioning w' = false) /\
  (forall t, In t (timers w) -> t_fn t = TfDebounceRelease -> transitioning w = true).
Proof.
  intros Hl Hr.
  destruct (kept_run es _ w Hr (kept_new c its inds Hl)) as [Hw Ho].
  pose proof Ho as [N [X [R [O D]]]].
  split; [|exact D].
  intros Hflag. destruct (R Hflag) as [t [Hin [F Hd]]].
  exists t. split; [exact Hin|]. split; [exact F|].
  split; [apply (O t Hin); congruence|].
  split; [apply release_named; assumption|].
  split; [split; [apply (wf_due w Hw t Hin) | exact Hd]|].
  intros w' Hs. simpl in Hs. apply fire_eq in Hs.
  destruct Hs as [t0 [Hin0 [Hid [_ ->]]]].
  assert (t0 = t) by (eapply same_id_same_timer; eauto). subst t0.
  rewrite F. reflexivity.
Qed.

Lemma debounce_flag_is_released_witness :
  let c := exampleConfig false true true true in
  exists w,
    run [CallForward false; TransitionEnd 0] (page c [Selected; Next; Next]) = Some w /\
    transitioning w = true /\
    exists t, In t (timers w) /\ t_fn t = TfDebounceRelease /\ t_period t = None /\
              transitioningTimeout w = Num (t_id t) /\
              now w <= t_due t <= now w + 3000 /\
              forall w', step (Fire (t_id t)) w = Some w' -> transitioning w' = false.
Proof.
  intros c. eexists. split; [vm_compute; reflexivity|].
  split; [vm_compute; reflexivity|].
  apply (debounce_flag_is_released c (slides c [Selected; Next; Next])
           (Some [dot; dot; dot]) [CallForward false; TransitionEnd 0]).
  - reflexivity.
  - vm_compute. reflexivity.
  - vm_compute. reflexivity.
Defined.

(** No timer of the class is leaked.  At every state a slideshow reaches
    from its construction: at most one debounce-release timer, one
    auto-advance interval and one resume timer are pending, each the one
    whose handle its field holds; the auto-advance interval and the resume
    timer are never pending together; and no timer but the auto-advance
    interval repeats. *)
Theorem timers_are_not_leaked
    (c : Config) (its : list Item) (inds : option (list Indicator))
    (es : list Event) (w : World) :
  concat (map listeners its) = [] ->
  run es (outcome (new_Slideshow c its inds)) = Some w ->
  (forall t t', In t (timers w) -> In t' (timers w) ->
     ownSlot (t_fn t) <> None -> t_fn t' = t_fn t -> t' = t) /\
  (forall t s, In t (timers w) -> ownSlot (t_fn t) = Some s ->
     slotValue w s = Num (t_id t)) /\
  (forall t t', In t (timers w) -> In t' (timers w) ->
     t_fn t = TfAutoInterval -> t_fn t' = TfAutoResume -> False) /\
  (forall t, In t (timers w) -> t_fn t <> TfAutoInterval -> t_period t = None).
Proof.
  intros Hl Hr.
  destruct (kept_run es _ w Hr (kept_new c its inds Hl)) as [Hw Ho].
  pose proof Ho as [N [X [R [O D]]]].
  split; [|split; [exact N | split; [exact X | exact O]]].
  intros t t' Hin Hin' Hk F.
  destruct (ownSlot (t_fn t)) as [s|] eqn:Hs; [|contradiction Hk; reflexivity].
  apply (same_id_same_timer w); auto.
  pose proof (N t s Hin Hs) as H1.
  rewrite <- F in Hs. pose proof (N t' s Hin' Hs) as H2. congruence.
Qed.

Lemma timers_are_not_leaked_witness :
  let c := exampleConfig false true true true in
  exists w,
    run [CallForward false; TransitionEnd 0; CallTo 2] (page c [Selected; Next; Next])
      = Some w /\
    (forall t t', In t (timers w) -> In t' (timers w) ->
       ownSlot (t_fn t) <> None -> t_fn t' = t_fn t -> t' = t) /\
    (forall t s, In t (timers w) -> ownSlot (t_fn t) = Some s ->
       slotValue w s = Num (t_id t)) /\
    (forall t t', In t (timers w) -> In t' (timers w) ->
       t_fn t = TfAutoInterval -> t_fn t' = TfAutoResume -> False) /\
    (forall t, In t (timers w) -> t_fn t <> TfAutoInterval -> t_period t = None).
Proof.
  intros c. eexists. split; [vm_compute; reflexivity|].
  apply (timers_are_not_leaked c (slides c [Selected; Next; Next])
           (Some [dot; dot; dot]) [CallForward false; TransitionEnd 0; CallTo 2]).
  - reflexivity.
  - vm_compute. reflexivity.
Defined.

(** ** Auto-advance stays scheduled *)































(** *** The transitions *)





















(** *** Along a run *)











(** *** The configuration is never changed *)








(** ** [isAtFront], [isAtEnd] and [autoTransition] *)

(** [isAtFront()] and [isAtEnd()] change nothing.  [isAtFront()] is true
    exactly when the first item bears the selected class.  [isAtEnd()] is
    true exactly when the item list is empty, or the last item bears the
    selected class and no item before it does.  So an empty slideshow is at
    its end and not at its front, and a non-empty one without a selected
    item is at neither. *)
Theorem isAtFront_isAtEnd_spec (w : World) :
  exists f e, isAtFront w = Ok f w /\ isAtEnd w = Ok e w /\
    (f = true <-> nth 0 (selMap w) false = true) /\
    (e = true <->
     (items w = [] \/
      (nth (length (items w) - 1) (selMap w) false = true /\
       forall j, (j < length (items w) - 1)%nat -> nth j (selMap w) false = false))).
Proof.
  exists (selectedIndexOf w =? 0),
         (selectedIndexOf w =? Z.of_nat (length (items w)) - 1).
  split; [reflexivity|]. split; [reflexivity|].
  pose proof (selectedIndexOf_spec w) as Hs.
  split; split.
  - intros H. apply Z.eqb_eq in H. destruct Hs as [[E _]|[_ Hn]]; [lia|].
    rewrite H in Hn. exact Hn.
  - intros H. apply Z.eqb_eq.
    apply (selectedIndexOf_is w 0 H). intros j Hj. lia.
  - intros H. apply Z.eqb_eq in H.
    destruct (items w) as [|x r] eqn:Hi; [left; reflexivity | right].
    rewrite <- Hi in *.
    assert (Hlen : (0 < length (items w))%nat) by (rewrite Hi; simpl; lia).
    destruct Hs as [[E _]|[Hr Hn]]; [lia|].
    replace (Z.to_nat (selectedIndexOf w)) with (length (items w) - 1)%nat in Hn by lia.
    split; [exact Hn|]. intros j Hj. apply before_first. lia.
  - intros [H|[H1 H2]]; apply Z.eqb_eq.
    + unfold selectedIndexOf. rewrite H. reflexivity.
    + assert (Hlen : (0 < length (items w))%nat).
      { destruct (items w) eqn:Hi; [|simpl; lia].
        unfold selMap in H1. rewrite Hi in H1. discriminate. }
      rewrite (selectedIndexOf_is w (length (items w) - 1) H1 H2). lia.
Qed.











(** ** The page of [example.js] *)

(** [window.onload] of [example.js].  When the document has both
    containers it builds a slideshow, and the constructor returns: the
    items are the children of [quote-slideshow] that bear [slideshow-item],
    the indicators those of [quote-slideshow-indicators] that bear
    [slideshow-indicator] (never [null]), in document order; when they are
    as many as the items each indicator gets its index as [data-index], else
    one diagnostic is logged and they are left as found; and the auto-advance
    interval of 7500 ms is the only pending timer.  When a container is
    missing it throws a [TypeError] and builds nothing. *)
Theorem onload_builds_the_slideshow
    (documentItems : string -> option (list Item))
    (documentIndicators : string -> option (list Indicator)) :
  (documentItems "quote-slideshow"%string = None ->
   forall fuel, onload fuel documentItems documentIndicators = TypeError) /\
  (forall children fuel,
     documentItems "quote-slideshow"%string = Some children ->
     (length children < fuel)%nat ->
     documentIndicators "quote-slideshow-indicators"%string = None ->
     onload fuel documentItems documentIndicators = TypeError) /\
  (forall children dots fuel,
     documentItems "quote-slideshow"%string = Some children ->
     documentIndicators "quote-slideshow-indicators"%string = Some dots ->
     (length children < fuel)%nat -> (length dots < fuel)%nat ->
     let its := filter (hasClass "slideshow-item") children in
     let inds := filter (fun d => contains "slideshow-indicator" (i_classList d)) dots in
     exists w, onload fuel documentItems documentIndicators = Returns (Ok tt w) /\
       cfg w = exampleArguments /\ items w = its /\
       transitioning w = false /\
       timers w = [mkTimer 1 7500 (Some 7500) TfAutoInterval] /\
       if Nat.eqb (length its) (length inds)
       then indicators w = Some (mapFrom 0 indexedIndicator inds) /\ console w = []
       else indicators w = Some inds /\ console w = [indicatorCountError]).
Proof.
  unfold onload, getItemsFromElement. split; [|split].
  - intros H fuel. rewrite H. reflexivity.
  - intros children fuel H Hf H'. rewrite H, H'.
    pose proof (filterLoop_filters classList "slideshow-item" children [] fuel Hf) as F.
    simpl in F. rewrite F. reflexivity.
  - intros children dots fuel H H' Hf Hf'. rewrite H, H'.
    pose proof (filterLoop_filters classList "slideshow-item" children [] fuel Hf) as F.
    pose proof (filterLoop_filters i_classList "slideshow-indicator" dots [] fuel Hf') as F'.
    simpl in F, F'. rewrite F, F'.
    change (filter (fun e => contains "slideshow-item" (classList e)) children)
      with (filter (hasClass "slideshow-item") children).
    set (its := filter (hasClass "slideshow-item") children).
    set (inds := filter (fun d => contains "slideshow-indicator" (i_classList d)) dots).
    destruct (constructor_effect exampleArguments its (Some inds))
      as [w [E [Hc [Hi [Hf0 [_ [Ht [_ [_ Hx]]]]]]]]].
    exists w. split; [rewrite E; reflexivity|].
    repeat (split; [assumption|]). exact Hx.
Qed.

Lemma onload_builds_the_slideshow_witness :
  let documentItems := fun id : string =>
    if String.eqb id "quote-slideshow"
    then Some [slide "slideshow-item-selected"; mkItem ["caption"%string] [];
               slide "slideshow-item-next"]
    else None in
  let documentIndicators := fun id : string =>
    if String.eqb id "quote-slideshow-indicators" then Some [dot; dot] else None in
  exists w, onload 4 documentItems documentIndicators = Returns (Ok tt w) /\
    items w = [slide "slideshow-item-selected"; slide "slideshow-item-next"] /\
    indicators w = Some [indexedIndicator 0 dot; indexedIndicator 1 dot].
Proof.
  intros documentItems documentIndicators.
  destruct (proj2 (proj2 (onload_builds_the_slideshow documentItems documentIndicators))
              [slide "slideshow-item-selected"; mkItem ["caption"%string] [];
               slide "slideshow-item-next"] [dot; dot] 4%nat)
    as [w [E [_ [Hi [_ [_ Hx]]]]]];
    [reflexivity | reflexivity | simpl; lia | simpl; lia |].
  exists w. split; [exact E|]. split; [exact Hi|]. exact (proj1 Hx).
Defined.

(** ** [transitionTo] ends on its target *)

















